(** * falcoctl, pkg/oci/authn/client.go: the authenticated registry client

    A shallow embedding of [NewClient], of the option constructors
    [WithAutoLogin] ... [WithInsecure] and of the credential callback that
    [NewClient] installs in the [auth.Client] it returns, followed by the
    properties of the credential resolution proved on that embedding.

    Conventions of the embedding.
    - A Go [error] is [option error]: [None] is [nil].
    - A credential function
      [func(context.Context, string) (auth.Credential, error)] acts on the
      world outside the resolver (the Go heap cells that hold credentials and
      an arbitrary external state: disk, network, metadata service).  It
      either returns or panics.  It has no access to the [Options] value
      captured by the callback, nor to the record of calls kept for the
      statements.
    - The callback threads a state made of the captured [Options] (the only
      field ever written is [CredentialsFuncsCache]), the world, and the
      sequence of calls made so far to the login handler and to credential
      functions, each with what it returned.
    - A nil function value is the credential function that panics when it
      is called and leaves the world as it is.
    - Calls are sequential: one callback runs to its end before the next. *)

From stdpp Require Import base option list strings gmap fin_maps.
From Stdlib Require Import ZArith.

(** ** Computations that return or panic *)

Inductive Outcome (S A : Type) : Type :=
| Ret (a : A) (s : S)
| Panic (s : S).

Arguments Ret {S A} a s.
Arguments Panic {S A} s.

Definition M (S A : Type) : Type := S -> Outcome S A.

Definition ret {S A} (a : A) : M S A := fun s => Ret a s.

Definition bind {S A B} (m : M S A) (k : A -> M S B) : M S B :=
  fun s => match m s with
           | Ret a s' => k a s'
           | Panic s' => Panic s'
           end.

Definition gets {S A} (f : S -> A) : M S A := fun s => Ret (f s) s.

Declare Scope go_scope.
Delimit Scope go_scope with go.
Notation "'let*' x ':=' m 'in' k" := (bind m (fun x => k))
  (at level 10, x name, m at level 100, k at level 200) : go_scope.

(** The state in which a computation ends, returned or panicked. *)
Definition stateOf {S A} (o : Outcome S A) : S :=
  match o with
  | Ret _ s => s
  | Panic s => s
  end.

(** ** oras-go [auth] and the standard library types used by the client *)

Module auth.

(** [auth.Credential]: four strings, compared field by field by [==]. *)
Record Credential : Type := mkCredential {
  Username : string;
  Password : string;
  RefreshToken : string;
  AccessToken : string
}.

Definition EmptyCredential : Credential :=
  mkCredential EmptyString EmptyString EmptyString EmptyString.

#[global] Instance Credential_eq_dec : EqDecision Credential.
Proof. solve_decision. Defined.

End auth.

Definition error : Type := string.

(** [time.Duration]: a count of nanoseconds in an int64. *)
Definition Duration : Type := Z.
Definition Nanosecond : Duration := 1%Z.
Definition Second : Duration := (1000000000 * Nanosecond)%Z.

(** The products [30 * time.Second] and the like in [NewClient] are Go
    constant expressions: they are computed exactly, without wrap-around. *)

Module net.
Record Dialer : Type := mkDialer {
  Timeout : Duration;
  KeepAlive : Duration
}.
End net.

Module tls.
Record Config : Type := mkConfig {
  InsecureSkipVerify : bool
}.
End tls.

Module http.

Inductive ProxyFunc : Type :=
| ProxyFromEnvironment.

(** The fields of [http.Transport] that [NewClient] sets; [DialContext] is
    kept as the dialer whose method it is, and a nil [TLSClientConfig] is
    [None]. *)
Record Transport : Type := mkTransport {
  Proxy : option ProxyFunc;
  DialContext : option net.Dialer;
  ForceAttemptHTTP2 : bool;
  MaxIdleConns : Z;
  IdleConnTimeout : Duration;
  TLSHandshakeTimeout : Duration;
  ExpectContinueTimeout : Duration;
  TLSClientConfig : option tls.Config
}.

Record Client : Type := mkClient {
  Transport_ : Transport
}.

(** [http.Header], with canonical keys. *)
Definition Header : Type := gmap string (list string).

(** [Header.Set]: the key now holds the single value. *)
Definition Header_Set (h : Header) (key value : string) : Header :=
  <[key := [value]]> h.

(** [Header.Get]: the first value of the key, or the empty string. *)
Definition Header_Get (h : Header) (key : string) : string :=
  match h !! key with
  | Some (v :: _) => v
  | _ => EmptyString
  end.

(** With a nil [TLSClientConfig] the transport uses the default
    configuration, which verifies the server's certificate chain; it skips
    verification exactly when the configuration says so. *)
Definition skipsVerification (t : Transport) : bool :=
  match TLSClientConfig t with
  | Some c => tls.InsecureSkipVerify c
  | None => false
  end.

End http.

(** ** The client options and the credential callback *)

Section Authn.

(** [context.Context], passed unchanged to the login handler and to every
    credential function, and the state of the environment that they read
    and write. *)
Variables (Context Ext : Type).

(** The world outside the resolver: the heap cells holding an
    [auth.Credential], addressed by pointer, and the environment. *)
Record World : Type := mkWorld {
  heap : gmap nat auth.Credential;
  ext : Ext
}.

(** A [*auth.Credential]: nil or the address of a cell. *)
Definition CredentialPtr : Type := option nat.

(** [func(context.Context, string) (auth.Credential, error)] *)
Definition CredFunc : Type :=
  Context -> string -> M World (auth.Credential * option error).

(** Modelled from the spec: the type [AutoLoginHandler] is declared in
    another file of the package; it exposes the single operation
    [Login(ctx, host) -> Error]. *)
Record AutoLoginHandler : Type := mkAutoLoginHandler {
  Login : Context -> string -> M World (option error)
}.

(** [auth.Cache] is an interface value that the client only passes on. *)
Inductive auth_Cache : Type :=
| CacheRef (id : nat).

(** The struct [Options].  A Go map is nil or a table: the field
    [CredentialsFuncsCache] is [None] for the nil map. *)
Record Options : Type := mkOptions {
  Ctx : option Context;
  CredentialsFuncsCache_ : option (gmap string CredFunc);
  CredentialsFuncs : list CredFunc;
  AutoLoginHandler_ : option AutoLoginHandler;
  ClientTokenCache : option auth_Cache;
  Insecure : bool
}.

(** The entries of [opt.CredentialsFuncsCache], which are what indexing the
    map reads: the nil map has none. *)
Definition CredentialsFuncsCache (o : Options) : gmap string CredFunc :=
  default ∅ (CredentialsFuncsCache_ o).

(** What the callback has called, in order, and what each call gave back
    ([None]: the call panicked). *)
Inductive Event : Type :=
| EvLogin (ctx : Context) (reg : string) (res : option (option error))
| EvCall (credFunc : CredFunc) (ctx : Context) (reg : string)
         (res : option (auth.Credential * option error)).

Record State : Type := mkState {
  opt : Options;
  world : World;
  calls : list Event
}.

Definition setWorld (w : World) (s : State) : State :=
  mkState (opt s) w (calls s).

Definition record (e : Event) (s : State) : State :=
  mkState (opt s) (world s) (calls s ++ [e]).

(** The state once [reg] is mapped to [credFunc] in the table of
    [opt.CredentialsFuncsCache]. *)
Definition setCache (reg : string) (credFunc : CredFunc) (s : State) : State :=
  let o := opt s in
  mkState
    (mkOptions (Ctx o) (Some (<[reg := credFunc]> (CredentialsFuncsCache o)))
               (CredentialsFuncs o) (AutoLoginHandler_ o)
               (ClientTokenCache o) (Insecure o))
    (world s) (calls s).

(** [opt.CredentialsFuncsCache[reg] = credFunc]: assigning to an entry of a
    nil map panics. *)
Definition assignCache (reg : string) (credFunc : CredFunc) : M State unit :=
  fun s =>
    match CredentialsFuncsCache_ (opt s) with
    | Some _ => Ret tt (setCache reg credFunc s)
    | None => Panic s
    end.

(** [credFunc(ctx, reg)] *)
Definition call (credFunc : CredFunc) (ctx : Context) (reg : string)
  : M State (auth.Credential * option error) :=
  fun s =>
    match credFunc ctx reg (world s) with
    | Ret r w =>
        Ret r (record (EvCall credFunc ctx reg (Some r)) (setWorld w s))
    | Panic w =>
        Panic (record (EvCall credFunc ctx reg None) (setWorld w s))
    end.

(** [opt.AutoLoginHandler.Login(ctx, reg)] *)
Definition login (h : AutoLoginHandler) (ctx : Context) (reg : string)
  : M State (option error) :=
  fun s =>
    match Login h ctx reg (world s) with
    | Ret r w => Ret r (record (EvLogin ctx reg (Some r)) (setWorld w s))
    | Panic w => Panic (record (EvLogin ctx reg None) (setWorld w s))
    end.

(** The loop [for _, credFunc := range opt.CredentialsFuncs] of the callback
    and the [return auth.EmptyCredential, nil] after it. *)
Fixpoint rangeCredentialsFuncs (funcs : list CredFunc) (ctx : Context)
    (reg : string) : M State (auth.Credential * option error) :=
  match funcs with
  | [] => ret (auth.EmptyCredential, None)
  | credFunc :: rest =>
      (let* r := call credFunc ctx reg in
       match r with
       | (_, Some err) => ret (auth.EmptyCredential, Some err)
       | (cred, None) =>
           if decide (cred <> auth.EmptyCredential) then
             (let* _ := assignCache reg credFunc in
              ret (cred, None))
           else rangeCredentialsFuncs rest ctx reg
       end)%go
  end.

(** The function that [NewClient] stores in the [Credential] field of the
    client. *)
Definition credentialCallback (ctx : Context) (reg : string)
  : M State (auth.Credential * option error) :=
  (let* cache := gets (fun s => CredentialsFuncsCache (opt s)) in
   match cache !! reg with
   | Some credFunc => call credFunc ctx reg
   | None =>
       let* handler := gets (fun s => AutoLoginHandler_ (opt s)) in
       let* loginErr :=
         match handler with
         | Some h => login h ctx reg
         | None => ret None
         end in
       match loginErr with
       | Some err => ret (auth.EmptyCredential, Some err)
       | None =>
           let* funcs := gets (fun s => CredentialsFuncs (opt s)) in
           rangeCredentialsFuncs funcs ctx reg
       end
   end)%go.


(** [auth.Client], with the header that [SetUserAgent] writes. *)
Record auth_Client : Type := mkAuthClient {
  Client : http.Client;
  Header : http.Header;
  Cache : option auth_Cache;
  Credential : Context -> string -> M State (auth.Credential * option error)
}.

(** oras-go's method [SetUserAgent] of [auth.Client]: a nil header is first
    replaced by an empty one, then [User-Agent] is set. *)
Definition SetUserAgent (userAgent : string) (c : auth_Client) : auth_Client :=
  mkAuthClient (Client c) (http.Header_Set (Header c) "User-Agent" userAgent)
               (Cache c) (Credential c).

Definition falcoctlUserAgent : string := "falcoctl".

(** The value of [opt] after the loop over [options]: the zero [Options]
    with an empty [CredentialsFuncsCache], to which each option is applied
    in turn. *)
Definition NewClient_opt (options : list (Options -> Options)) : Options :=
  fold_left (fun opt o => o opt) options
    (mkOptions None (Some ∅) [] None None false).

Definition NewClient_transport (opt : Options) : http.Transport :=
  let transport :=
    http.mkTransport
      (Some http.ProxyFromEnvironment)
      (Some (net.mkDialer (30 * Second)%Z (30 * Second)%Z))
      true
      100%Z
      (90 * Second)%Z
      (10 * Second)%Z
      (1 * Second)%Z
      None in
  if Insecure opt then
    http.mkTransport
      (http.Proxy transport) (http.DialContext transport)
      (http.ForceAttemptHTTP2 transport) (http.MaxIdleConns transport)
      (http.IdleConnTimeout transport) (http.TLSHandshakeTimeout transport)
      (http.ExpectContinueTimeout transport)
      (Some (tls.mkConfig true))
  else transport.

(** [NewClient]: the client it returns.  The [Options] that the callback
    of this client captures start as [NewClient_opt options]. *)
Definition NewClient (options : list (Options -> Options)) : auth_Client :=
  let opt := NewClient_opt options in
  let transport := NewClient_transport opt in
  let authClient :=
    mkAuthClient (http.mkClient transport) ∅ (ClientTokenCache opt)
                 credentialCallback in
  SetUserAgent falcoctlUserAgent authClient.

(** The state in which the callback of [NewClient options] is first
    called, in world [w]. *)
Definition NewClient_state (options : list (Options -> Options)) (w : World)
  : State :=
  mkState (NewClient_opt options) w [].

(** *** The option constructors *)

Definition WithAutoLogin (handler : option AutoLoginHandler)
  : Options -> Options :=
  fun c => mkOptions (Ctx c) (CredentialsFuncsCache_ c) (CredentialsFuncs c)
                     handler (ClientTokenCache c) (Insecure c).

(** [c.CredentialsFuncs = append(c.CredentialsFuncs, f)] *)
Definition appendCredentialsFunc (f : CredFunc) (c : Options) : Options :=
  mkOptions (Ctx c) (CredentialsFuncsCache_ c) (CredentialsFuncs c ++ [f])
            (AutoLoginHandler_ c) (ClientTokenCache c) (Insecure c).

Definition EmptyCredentialFunc : CredFunc :=
  fun _ _ => ret (auth.EmptyCredential, None).

(** The credential functions declared in other files of the package or in
    oras-go: the method value [oauthStore.Credential] of the store made by
    [NewOauthClientCredentialsStore()], the function [GCPCredential], and
    [credentials.Credential(store)] for a [credentials.Store]. *)
Variable oauthStore_Credential : CredFunc.
Variable GCPCredential : CredFunc.
Variable Store : Type.
Variable credentials_Credential : Store -> CredFunc.

Definition WithOAuthCredentials : Options -> Options :=
  fun c => appendCredentialsFunc oauthStore_Credential c.

Definition WithGcpCredentials : Options -> Options :=
  fun c => appendCredentialsFunc GCPCredential c.

(** The closure of [WithCredentials], whose body is [return *cred, nil]:
    dereferencing a nil pointer panics. *)
Definition staticCredential (cred : CredentialPtr) : CredFunc :=
  fun _ _ w =>
    match cred with
    | Some l =>
        match heap w !! l with
        | Some c => Ret (c, None) w
        | None => Panic w
        end
    | None => Panic w
    end.

Definition WithCredentials (cred : CredentialPtr) : Options -> Options :=
  fun c => appendCredentialsFunc (staticCredential cred) c.

Definition WithStore (store : Store) : Options -> Options :=
  fun c => appendCredentialsFunc (credentials_Credential store) c.

Definition WithClientTokenCache (cache : option auth_Cache)
  : Options -> Options :=
  fun c => mkOptions (Ctx c) (CredentialsFuncsCache_ c) (CredentialsFuncs c)
                     (AutoLoginHandler_ c) cache (Insecure c).

Definition WithInsecure : Options -> Options :=
  fun c => mkOptions (Ctx c) (CredentialsFuncsCache_ c) (CredentialsFuncs c)
                     (AutoLoginHandler_ c) (ClientTokenCache c) true.

(** The options that this file constructs. *)
Inductive packageOption : (Options -> Options) -> Prop :=
| po_AutoLogin handler : packageOption (WithAutoLogin handler)
| po_OAuthCredentials : packageOption WithOAuthCredentials
| po_GcpCredentials : packageOption WithGcpCredentials
| po_Credentials cred : packageOption (WithCredentials cred)
| po_Store store : packageOption (WithStore store)
| po_ClientTokenCache cache : packageOption (WithClientTokenCache cache)
| po_Insecure : packageOption WithInsecure.

(** *** Sequences of calls of the callback *)

(** The callback called once for each [(ctx, reg)] of the list, a call
    starting when the one before has returned or panicked. *)
Definition resolveAll (reqs : list (Context * string)) (s : State) : State :=
  fold_left (fun s r => stateOf (credentialCallback r.1 r.2 s)) reqs s.

(** *** Reading the record of calls *)

(** The calls made between state [s] and a later state [s']. *)
Definition since (s s' : State) : list Event :=
  drop (length (calls s)) (calls s').

(** The credential functions called, in the order of the calls. *)
Definition calledFuncs (evs : list Event) : list CredFunc :=
  omap (fun e => match e with
                 | EvCall credFunc _ _ _ => Some credFunc
                 | EvLogin _ _ _ => None
                 end) evs.

(** The call of [credFunc] that returned no credential and no error. *)
Definition noCredential (ctx : Context) (reg : string) (credFunc : CredFunc)
  : Event :=
  EvCall credFunc ctx reg (Some (auth.EmptyCredential, None)).

(** How the loop over the credential functions ends: after [n] functions
    that returned no credential, with a last call [last] (none when the
    list is exhausted) and outcome [o]; a function that returned a
    credential is cached, or the assignment to the nil map panics. *)
Inductive LoopEnd (funcs : list CredFunc) (ctx : Context) (reg : string)
    (s : State)
  : nat -> list Event -> Outcome State (auth.Credential * option error)
    -> Prop :=
| le_exhausted s' :
    opt s' = opt s ->
    LoopEnd funcs ctx reg s (length funcs) []
      (Ret (auth.EmptyCredential, None) s')
| le_found n credFunc cred s' :
    funcs !! n = Some credFunc ->
    cred <> auth.EmptyCredential ->
    CredentialsFuncsCache_ (opt s) <> None ->
    opt s' = opt (setCache reg credFunc s) ->
    LoopEnd funcs ctx reg s n [EvCall credFunc ctx reg (Some (cred, None))]
      (Ret (cred, None) s')
| le_nilmap n credFunc cred s' :
    funcs !! n = Some credFunc ->
    cred <> auth.EmptyCredential ->
    CredentialsFuncsCache_ (opt s) = None ->
    opt s' = opt s ->
    LoopEnd funcs ctx reg s n [EvCall credFunc ctx reg (Some (cred, None))]
      (Panic s')
| le_failed n credFunc cred err s' :
    funcs !! n = Some credFunc ->
    opt s' = opt s ->
    LoopEnd funcs ctx reg s n
      [EvCall credFunc ctx reg (Some (cred, Some err))]
      (Ret (auth.EmptyCredential, Some err) s')
| le_panicked n credFunc s' :
    funcs !! n = Some credFunc ->
    opt s' = opt s ->
    LoopEnd funcs ctx reg s n [EvCall credFunc ctx reg None] (Panic s').

(** What the calls of credential functions gave back, in the order of the
    calls ([None]: the call panicked). *)
Definition callResults (evs : list Event)
  : list (option (auth.Credential * option error)) :=
  omap (fun e => match e with
                 | EvCall _ _ _ res => Some res
                 | EvLogin _ _ _ => None
                 end) evs.

(** How the auto-login step of an uncached host ends: [pre] is what it
    called, [s1] the state it leaves, [stop] the outcome of the callback
    when the step ends it. *)
Inductive LoginEnd (s : State) (ctx : Context) (reg : string)
  : list Event -> State
    -> option (Outcome State (auth.Credential * option error))
    -> Prop :=
| lg_absent :
    AutoLoginHandler_ (opt s) = None ->
    LoginEnd s ctx reg [] s None
| lg_ok h w :
    AutoLoginHandler_ (opt s) = Some h ->
    Login h ctx reg (world s) = Ret None w ->
    LoginEnd s ctx reg [EvLogin ctx reg (Some None)]
      (mkState (opt s) w (calls s ++ [EvLogin ctx reg (Some None)])) None
| lg_failed h w err :
    AutoLoginHandler_ (opt s) = Some h ->
    Login h ctx reg (world s) = Ret (Some err) w ->
    let s1 := mkState (opt s) w
                (calls s ++ [EvLogin ctx reg (Some (Some err))]) in
    LoginEnd s ctx reg [EvLogin ctx reg (Some (Some err))] s1
      (Some (Ret (auth.EmptyCredential, Some err) s1))
| lg_panicked h w :
    AutoLoginHandler_ (opt s) = Some h ->
    Login h ctx reg (world s) = Panic w ->
    let s1 := mkState (opt s) w (calls s ++ [EvLogin ctx reg None]) in
    LoginEnd s ctx reg [EvLogin ctx reg None] s1 (Some (Panic s1)).

(** What the calls of the login handler gave back, in the order of the
    calls ([None]: the call panicked). *)
Definition loginResults (evs : list Event) : list (option (option error)) :=
  omap (fun e => match e with
                 | EvLogin _ _ res => Some res
                 | EvCall _ _ _ _ => None
                 end) evs.

(** The context and the host that a call was given. *)
Definition eventArgs (e : Event) : Context * string :=
  match e with
  | EvLogin ctx reg _ => (ctx, reg)
  | EvCall _ ctx reg _ => (ctx, reg)
  end.

(** [performed handler evs w w']: made one after the other from world [w],
    the calls of [evs] (the logins being those of [handler]) give back what
    [evs] says they did, and leave world [w']. *)
Fixpoint performed (handler : option AutoLoginHandler) (evs : list Event)
    (w w' : World) : Prop :=
  match evs with
  | [] => w = w'
  | EvCall credFunc ctx reg res :: rest =>
      exists w1,
        credFunc ctx reg w =
          match res with
          | Some r => Ret r w1
          | None => Panic w1
          end /\
        performed handler rest w1 w'
  | EvLogin ctx reg res :: rest =>
      exists h w1,
        handler = Some h /\
        Login h ctx reg w =
          match res with
          | Some r => Ret r w1
          | None => Panic w1
          end /\
        performed handler rest w1 w'
  end.

(** What a call gave back ([None]: it panicked). *)
Definition resultOf {A} (o : Outcome World A) : option A :=
  match o with
  | Ret a _ => Some a
  | Panic _ => None
  end.

(** [noCredentialRun funcs ctx reg w w']: called one after the other from
    world [w], each in the world that the one before left, the functions of
    [funcs] all return the empty credential with a nil error, and the last
    one leaves world [w']. *)
Fixpoint noCredentialRun (funcs : list CredFunc) (ctx : Context)
    (reg : string) (w w' : World) : Prop :=
  match funcs with
  | [] => w = w'
  | credFunc :: rest =>
      exists w1,
        credFunc ctx reg w = Ret (auth.EmptyCredential, None) w1 /\
        noCredentialRun rest ctx reg w1 w'
  end.

(** [loginPassed s ctx reg w1]: called in state [s], the auto-login step of
    the callback lets the loop start, in world [w1]: there is no handler
    and [w1] is the world of [s], or [Login] returns a nil error and leaves
    [w1]. *)
Definition loginPassed (s : State) (ctx : Context) (reg : string)
    (w1 : World) : Prop :=
  match AutoLoginHandler_ (opt s) with
  | None => w1 = world s
  | Some h => Login h ctx reg (world s) = Ret None w1
  end.

(** An outcome without the record of calls: the result, the options and
    the world. *)
Definition forgetCalls {A} (o : Outcome State A)
  : Outcome (Options * World) A :=
  match o with
  | Ret a s => Ret a (opt s, world s)
  | Panic s => Panic (opt s, world s)
  end.

End Authn.

Arguments mkWorld {Ext} heap ext.
Arguments heap {Ext} w.
Arguments ext {Ext} w.
Arguments mkAutoLoginHandler {Context Ext} Login.
Arguments Login {Context Ext} a ctx reg w.
Arguments mkOptions {Context Ext}.
Arguments Ctx {Context Ext} o.
Arguments CredentialsFuncsCache_ {Context Ext} o.
Arguments CredentialsFuncsCache {Context Ext} o.
Arguments CredentialsFuncs {Context Ext} o.
Arguments AutoLoginHandler_ {Context Ext} o.
Arguments ClientTokenCache {Context Ext} o.
Arguments Insecure {Context Ext} o.
Arguments EvLogin {Context Ext} ctx reg res.
Arguments EvCall {Context Ext} credFunc ctx reg res.
Arguments mkState {Context Ext} opt world calls.
Arguments opt {Context Ext} s.
Arguments world {Context Ext} s.
Arguments calls {Context Ext} s.
Arguments setWorld {Context Ext} w s.
Arguments record {Context Ext} e s.
Arguments setCache {Context Ext} reg credFunc s.
Arguments assignCache {Context Ext} reg credFunc s.
Arguments call {Context Ext} credFunc ctx reg s.
Arguments login {Context Ext} h ctx reg s.
Arguments rangeCredentialsFuncs {Context Ext} funcs ctx reg s.
Arguments credentialCallback {Context Ext} ctx reg s.
Arguments mkAuthClient {Context Ext}.
Arguments Client {Context Ext} a.
Arguments Header {Context Ext} a.
Arguments Cache {Context Ext} a.
Arguments Credential {Context Ext} a ctx reg s.
Arguments SetUserAgent {Context Ext} userAgent c.
Arguments NewClient_opt {Context Ext} options.
Arguments NewClient_transport {Context Ext} opt.
Arguments NewClient {Context Ext} options.
Arguments NewClient_state {Context Ext} options w.
Arguments WithAutoLogin {Context Ext} handler c.
Arguments appendCredentialsFunc {Context Ext} f c.
Arguments EmptyCredentialFunc {Context Ext} ctx reg w.
Arguments WithOAuthCredentials {Context Ext} oauthStore_Credential c.
Arguments WithGcpCredentials {Context Ext} GCPCredential c.
Arguments staticCredential {Context Ext} cred ctx reg w.
Arguments WithCredentials {Context Ext} cred c.
Arguments WithStore {Context Ext Store} credentials_Credential store c.
Arguments WithClientTokenCache {Context Ext} cache c.
Arguments WithInsecure {Context Ext} c.
Arguments packageOption {Context Ext} oauthStore_Credential GCPCredential
  {Store} credentials_Credential o.
Arguments resolveAll {Context Ext} reqs s.
Arguments since {Context Ext} s s'.
Arguments calledFuncs {Context Ext} evs.
Arguments noCredential {Context Ext} ctx reg credFunc.
Arguments LoopEnd {Context Ext} funcs ctx reg s n last o.
Arguments callResults {Context Ext} evs.
Arguments LoginEnd {Context Ext} s ctx reg pre s1 stop.
Arguments loginResults {Context Ext} evs.
Arguments eventArgs {Context Ext} e.
Arguments performed {Context Ext} handler evs w w'.
Arguments forgetCalls {Context Ext A} o.
Arguments resultOf {Ext A} o.
Arguments noCredentialRun {Context Ext} funcs ctx reg w w'.
Arguments loginPassed {Context Ext} s ctx reg w1.

(** ** Concrete clients, used to run the model *)

Module Examples.

Definition token (t : string) : auth.Credential :=
  auth.mkCredential EmptyString EmptyString EmptyString t.

Definition basic (u p : string) : auth.Credential :=
  auth.mkCredential u p EmptyString EmptyString.

(** The environment counts the lookups made in it. *)
Definition lookedUp (w : World nat) : World nat :=
  mkWorld (heap w) (S (ext w)).

(** A credential store that knows no host. *)
Definition storeNone : CredFunc nat nat :=
  fun _ _ w => Ret (auth.EmptyCredential, None) (lookedUp w).

(** A token source that answers [t] for every host. *)
Definition oauth (t : string) : CredFunc nat nat :=
  fun _ _ w => Ret (token t, None) (lookedUp w).

(** A source that fails with [msg]. *)
Definition failing (msg : string) : CredFunc nat nat :=
  fun _ _ w => Ret (auth.EmptyCredential, Some msg) (lookedUp w).

Definition loginFails (msg : string) : AutoLoginHandler nat nat :=
  mkAutoLoginHandler (fun _ _ w => Ret (Some msg) w).

Definition loginSucceeds : AutoLoginHandler nat nat :=
  mkAutoLoginHandler (fun _ _ w => Ret None (lookedUp w)).

(** A world whose cell 1 holds the credential [u:p]. *)
Definition w0 : World nat :=
  mkWorld {[ 1%nat := basic "u" "p" ]} 0.

Definition withFunc (f : CredFunc nat nat)
  : Options nat nat -> Options nat nat :=
  appendCredentialsFunc f.

Definition host : string := "reg.example.com".

(** Scenario A of the specification: a store without the host, then a
    token source. *)
Definition stateA : State nat nat :=
  NewClient_state [withFunc storeNone; withFunc (oauth "T1")] w0.

(** Three sources, of which the second has a credential. *)
Definition stateThree : State nat nat :=
  NewClient_state
    [withFunc storeNone; withFunc (oauth "T1"); withFunc (oauth "T2")] w0.

(** Scenario B: one static credential. *)
Definition stateB : State nat nat :=
  NewClient_state [WithCredentials (Some 1%nat)] w0.

(** Scenario C: one failing source. *)
Definition stateC : State nat nat :=
  NewClient_state [withFunc (failing "disk read failed")] w0.

(** Auto-login that fails, in front of a token source. *)
Definition stateLogin : State nat nat :=
  NewClient_state
    [WithAutoLogin (Some (loginFails "login failed")); withFunc (oauth "T1")]
    w0.

(** Auto-login that fails and no credential function at all. *)
Definition stateLoginOnly : State nat nat :=
  NewClient_state [WithAutoLogin (Some (loginFails "login failed"))] w0.

(** Only sources without a credential. *)
Definition stateNone : State nat nat :=
  NewClient_state [withFunc storeNone; withFunc EmptyCredentialFunc] w0.

(** A world whose cell 1 holds the credential [u:p] and whose cell 2 holds
    the empty credential. *)
Definition wEmpty : World nat :=
  mkWorld {[ 1%nat := basic "u" "p"; 2%nat := auth.EmptyCredential ]} 0.

(** Two static credentials, of which the first is empty, then a token
    source. *)
Definition stateStatic : State nat nat :=
  NewClient_state
    [WithCredentials (Some 2%nat); WithCredentials (Some 1%nat);
     withFunc (oauth "T2")] wEmpty.

(** A static credential that is empty, then a store without the host. *)
Definition stateEmptyCell : State nat nat :=
  NewClient_state [WithCredentials (Some 2%nat); withFunc storeNone] wEmpty.

(** A hand-written option that resets the exported map to nil. *)
Definition nilCache : Options nat nat -> Options nat nat :=
  fun c => mkOptions (Ctx c) None (CredentialsFuncs c) (AutoLoginHandler_ c)
                     (ClientTokenCache c) (Insecure c).

(** A token source behind a nil map. *)
Definition stateNil : State nat nat :=
  NewClient_state [withFunc (oauth "T1"); nilCache] w0.

End Examples.

(** ** Properties *)

Section AuthnProperties.

Variables (Context Ext : Type).

Implicit Types (s : State Context Ext) (ctx : Context) (reg : string).
Implicit Types (funcs : list (CredFunc Context Ext)).
Implicit Types (evs : list (Event Context Ext)).

Lemma since_app s s' evs :
  calls s' = calls s ++ evs -> since s s' = evs.
Proof.
  intros E. unfold since. rewrite E. apply drop_app_length.
Qed.

Lemma since_refl s : since s s = [].
Proof. apply since_app. by rewrite app_nil_r. Qed.

(** One call appends one event and leaves the options alone. *)
Lemma call_spec (credFunc : CredFunc Context Ext) ctx reg s :
  exists res w,
    stateOf (call credFunc ctx reg s) =
      mkState (opt s) w (calls s ++ [EvCall credFunc ctx reg res]) /\
    match res with
    | Some r => credFunc ctx reg (world s) = Ret r w /\
                call credFunc ctx reg s =
                  Ret r (mkState (opt s) w
                           (calls s ++ [EvCall credFunc ctx reg res]))
    | None => credFunc ctx reg (world s) = Panic w /\
              call credFunc ctx reg s =
                Panic (mkState (opt s) w
                         (calls s ++ [EvCall credFunc ctx reg res]))
    end.
Proof.
  unfold call. destruct (credFunc ctx reg (world s)) as [r w|w].
  - by exists (Some r), w.
  - by exists None, w.
Qed.

(** The shape of every run of the loop. *)
Lemma range_shape funcs ctx reg s :
  exists n last,
    calls (stateOf (rangeCredentialsFuncs funcs ctx reg s)) =
      calls s ++ map (noCredential ctx reg) (take n funcs) ++ last /\
    LoopEnd funcs ctx reg s n last (rangeCredentialsFuncs funcs ctx reg s).
Proof.
  revert s. induction funcs as [|f rest IH]; intros s.
  - exists 0%nat, []. split; [by rewrite app_nil_r|]. by constructor.
  - cbn [rangeCredentialsFuncs]. unfold bind.
    destruct (call_spec f ctx reg s) as (res & w & Hst & Hres).
    destruct res as [[cred [err|]]|]; destruct Hres as [Hf Hc]; rewrite Hc.
    + exists 0%nat, [EvCall f ctx reg (Some (cred, Some err))].
      split; [done|]. by econstructor.
    + destruct (decide (cred <> auth.EmptyCredential)) as [Hne|He].
      * exists 0%nat, [EvCall f ctx reg (Some (cred, None))].
        unfold assignCache. cbn.
        destruct (CredentialsFuncsCache_ (opt s)) as [m|] eqn:Em.
        -- split; [done|]. eapply le_found; [done|done| |done].
           by rewrite Em.
        -- split; [done|]. by eapply le_nilmap.
      * assert (cred = auth.EmptyCredential) as ->
          by (destruct (decide (cred = auth.EmptyCredential)); tauto).
        set (s1 := mkState _ _ _).
        destruct (IH s1) as (n & last & Hcalls & Hend).
        exists (S n), last. split.
        { rewrite Hcalls. subst s1. cbn. by rewrite <- app_assoc. }
        clear Hcalls. destruct Hend.
        -- by apply (le_exhausted _ _ (f :: rest)).
        -- by apply (le_found _ _ (f :: rest) ctx reg s (S n)).
        -- by apply (le_nilmap _ _ (f :: rest) ctx reg s (S n)).
        -- by apply (le_failed _ _ (f :: rest) ctx reg s (S n)).
        -- by apply (le_panicked _ _ (f :: rest) ctx reg s (S n)).
    + exists 0%nat, [EvCall f ctx reg None].
      split; [done|]. by econstructor.
Qed.

(** *** The two paths of the callback *)

Lemma callback_cached s ctx reg (credFunc : CredFunc Context Ext) :
  CredentialsFuncsCache (opt s) !! reg = Some credFunc ->
  credentialCallback ctx reg s = call credFunc ctx reg s.
Proof.
  intros E. unfold credentialCallback, bind, gets. by rewrite E.
Qed.

Lemma LoginEnd_state s ctx reg pre s1 stop :
  LoginEnd s ctx reg pre s1 stop ->
  opt s1 = opt s /\ calls s1 = calls s ++ pre /\ calledFuncs pre = [].
Proof.
  destruct 1; cbn; rewrite ?app_nil_r; done.
Qed.

Lemma LoginEnd_stop s ctx reg pre s1 o :
  LoginEnd s ctx reg pre s1 (Some o) ->
  (exists err, o = Ret (auth.EmptyCredential, Some err) s1) \/ o = Panic s1.
Proof.
  inversion 1; subst; [left; by eexists|by right].
Qed.

Lemma LoginEnd_results s ctx reg pre s1 stop :
  LoginEnd s ctx reg pre s1 stop -> callResults pre = [].
Proof. by destruct 1. Qed.

Lemma LoginEnd_events s ctx reg pre s1 stop :
  LoginEnd s ctx reg pre s1 stop ->
  forall e, e ∈ pre -> exists r, e = EvLogin ctx reg r.
Proof.
  intros Hl e He.
  destruct Hl; [by apply elem_of_nil in He|..];
    apply list_elem_of_singleton in He; eauto.
Qed.

Lemma callback_uncached s ctx reg :
  CredentialsFuncsCache (opt s) !! reg = None ->
  exists pre s1 stop,
    LoginEnd s ctx reg pre s1 stop /\
    credentialCallback ctx reg s =
      match stop with
      | Some o => o
      | None => rangeCredentialsFuncs (CredentialsFuncs (opt s)) ctx reg s1
      end.
Proof.
  intros E. unfold credentialCallback, bind, gets. rewrite E.
  destruct (AutoLoginHandler_ (opt s)) as [h|] eqn:Eh.
  - unfold login. destruct (Login h ctx reg (world s)) as [[err|] w|w] eqn:El.
    + eexists _, _, _. split; [by eapply lg_failed|done].
    + eexists _, _, _. split; [by eapply lg_ok|done].
    + eexists _, _, _. split; [by eapply lg_panicked|done].
  - eexists _, _, _. split; [by eapply lg_absent|done].
Qed.

(** The shape of every run of the callback for an uncached host. *)
Lemma uncached_shape s ctx reg :
  CredentialsFuncsCache (opt s) !! reg = None ->
  let o := credentialCallback ctx reg s in
  let funcs := CredentialsFuncs (opt s) in
  exists pre s1 stop,
    LoginEnd s ctx reg pre s1 stop /\
    match stop with
    | Some o' => o = o' /\ calls (stateOf o) = calls s ++ pre
    | None =>
        exists n last,
          calls (stateOf o) =
            calls s ++
              pre ++ map (noCredential ctx reg) (take n funcs) ++ last /\
          LoopEnd funcs ctx reg s1 n last o
    end.
Proof.
  intros E o funcs.
  destruct (callback_uncached s ctx reg E) as (pre & s1 & stop & Hl & Ho).
  exists pre, s1, stop. split; [done|].
  destruct (LoginEnd_state _ _ _ _ _ _ Hl) as (Hopt & Hcalls & _).
  fold o in Ho. destruct stop as [o'|].
  - split; [done|]. rewrite Ho. inversion Hl; subst; done.
  - destruct (range_shape funcs ctx reg s1) as (n & last & Hc & Hend).
    fold funcs in Ho. rewrite <- Ho in Hc, Hend.
    exists n, last. split; [|done].
    rewrite Hc, Hcalls. by rewrite <- app_assoc.
Qed.

Lemma elem_of_noCredential ctx reg funcs (e : Event Context Ext) :
  e ∈ map (noCredential ctx reg) funcs ->
  exists f, e = EvCall f ctx reg (Some (auth.EmptyCredential, None)).
Proof.
  intros (f & -> & _)%list_elem_of_fmap. by exists f.
Qed.

Lemma calledFuncs_app evs1 evs2 :
  calledFuncs (evs1 ++ evs2) = calledFuncs evs1 ++ calledFuncs evs2.
Proof. apply omap_app. Qed.

Lemma callResults_app evs1 evs2 :
  callResults (evs1 ++ evs2) = callResults evs1 ++ callResults evs2.
Proof. apply omap_app. Qed.

Lemma calledFuncs_noCredential ctx reg funcs :
  calledFuncs (map (noCredential ctx reg) funcs) = funcs.
Proof.
  induction funcs as [|f funcs IH]; [done|]. cbn. by f_equal.
Qed.

Lemma callResults_noCredential ctx reg funcs :
  callResults (map (noCredential ctx reg) funcs) =
    replicate (length funcs) (Some (auth.EmptyCredential, None)).
Proof.
  induction funcs as [|f funcs IH]; [done|]. cbn. by f_equal.
Qed.

(** One call of the callback: it only adds to the record of calls, and it
    changes the options only by caching, for an uncached host, the function
    whose call came last and returned a credential. *)
Lemma callback_step s ctx reg :
  let o := credentialCallback ctx reg s in
  calls (stateOf o) = calls s ++ since s (stateOf o) /\
  (opt (stateOf o) = opt s \/
   CredentialsFuncsCache (opt s) !! reg = None /\
   exists credFunc cred,
     credFunc ∈ CredentialsFuncs (opt s) /\
     cred <> auth.EmptyCredential /\
     opt (stateOf o) = opt (setCache reg credFunc s) /\
     o = Ret (cred, None) (stateOf o) /\
     last (since s (stateOf o)) =
       Some (EvCall credFunc ctx reg (Some (cred, None)))).
Proof.
  intros o.
  destruct (CredentialsFuncsCache (opt s) !! reg) as [f|] eqn:E.
  - subst o. rewrite (callback_cached _ _ _ _ E).
    destruct (call_spec f ctx reg s) as (res & w & Hst & _).
    rewrite Hst. cbn. split; [|by left].
    f_equal. symmetry. by apply since_app.
  - destruct (uncached_shape s ctx reg E) as (pre & s1 & stop & Hl & Hs).
    fold o in Hs.
    destruct (LoginEnd_state _ _ _ _ _ _ Hl) as (Hopt & Hcalls & _).
    destruct stop as [o'|].
    + destruct Hs as [Ho Hc]. rewrite (since_app _ _ _ Hc). split; [done|].
      left. rewrite Ho. inversion Hl; subst; done.
    + destruct Hs as (n & last & Hc & Hend).
      rewrite (since_app _ _ _ Hc). split; [done|].
      destruct Hend as [s' Ho|k f cred s' Hk Hne Hm Ho|k f cred s' Hk Hne Hm Ho
                       |k f cred err s' Hk Ho|k f s' Hk Ho]; cbn.
      * left. congruence.
      * right. split; [done|]. exists f, cred.
        split; [by eapply list_elem_of_lookup_2|].
        split; [done|].
        split; [by rewrite Ho; unfold setCache, CredentialsFuncsCache;
                   rewrite Hopt|].
        split; [done|]. by rewrite !app_assoc, last_snoc.
      * left. congruence.
      * left. congruence.
      * left. congruence.
Qed.

(** *** Auto-login gating *)

(** C5. For an uncached host, when an auto-login handler is configured and
    its [Login(ctx, reg)] returns a non-nil error, the callback returns the
    empty credential with that error; the only call it makes is the login,
    so no credential function is called, and the options, cache included,
    are as before. *)
Theorem autologin_gating s ctx reg (h : AutoLoginHandler Context Ext)
    (err : error) (w : World Ext) :
  CredentialsFuncsCache (opt s) !! reg = None ->
  AutoLoginHandler_ (opt s) = Some h ->
  Login h ctx reg (world s) = Ret (Some err) w ->
  let o := credentialCallback ctx reg s in
  o = Ret (auth.EmptyCredential, Some err) (stateOf o) /\
  since s (stateOf o) = [EvLogin ctx reg (Some (Some err))] /\
  calledFuncs (since s (stateOf o)) = [] /\
  opt (stateOf o) = opt s /\
  world (stateOf o) = w.
Proof.
  intros E Eh El o. subst o.
  unfold credentialCallback, bind, gets, login. rewrite E, Eh, El. cbn.
  rewrite (since_app s _ [EvLogin ctx reg (Some (Some err))]); done.
Qed.

(** *** Runs of the loop, read off what the functions return *)

Lemma setCache_congr reg (f : CredFunc Context Ext) s1 s :
  opt s1 = opt s -> opt (setCache reg f s1) = opt (setCache reg f s).
Proof. unfold setCache. cbn. by intros ->. Qed.

(** When every function returns no credential, each in the world that the
    one before left, the loop calls them all and returns no credential. *)
Lemma range_exhausts funcs ctx reg s (w2 : World Ext) :
  noCredentialRun funcs ctx reg (world s) w2 ->
  exists s',
    rangeCredentialsFuncs funcs ctx reg s =
      Ret (auth.EmptyCredential, None) s' /\
    opt s' = opt s /\
    world s' = w2 /\
    calls s' = calls s ++ map (noCredential ctx reg) funcs.
Proof.
  revert s. induction funcs as [|f rest IH]; intros s Hrun; cbn in Hrun.
  - exists s. by rewrite app_nil_r.
  - destruct Hrun as (w1 & Hf & Hrest).
    cbn [rangeCredentialsFuncs]. unfold bind, call. rewrite Hf.
    destruct (decide (auth.EmptyCredential <> auth.EmptyCredential));
      [done|].
    destruct (IH (record (noCredential ctx reg f) (setWorld w1 s)) Hrest)
      as (s' & Hr & Ho & Hw & Hc).
    exists s'. split; [done|]. split; [done|]. split; [done|].
    rewrite Hc. cbn. by rewrite <- app_assoc.
Qed.

(** When the functions of [pre] return no credential, each in the world
    that the one before left, and the next function [f] gives back anything
    else, the loop calls [pre], then [f], and stops there: no function of
    [post] is called.  A credential returned with a nil error is returned
    and [f] is cached, unless the map is nil and the assignment panics. *)
Lemma range_stops (pre : list (CredFunc Context Ext))
    (f : CredFunc Context Ext) (post : list (CredFunc Context Ext))
    ctx reg s (w2 : World Ext) :
  noCredentialRun pre ctx reg (world s) w2 ->
  (forall w3, f ctx reg w2 <> Ret (auth.EmptyCredential, None) w3) ->
  let o := rangeCredentialsFuncs (pre ++ f :: post) ctx reg s in
  calls (stateOf o) =
    calls s ++ map (noCredential ctx reg) pre
            ++ [EvCall f ctx reg (resultOf (f ctx reg w2))] /\
  world (stateOf o) = stateOf (f ctx reg w2) /\
  (forall cred w3,
     f ctx reg w2 = Ret (cred, None) w3 ->
     match CredentialsFuncsCache_ (opt s) with
     | Some _ =>
         o = Ret (cred, None) (stateOf o) /\
         opt (stateOf o) = opt (setCache reg f s)
     | None => o = Panic (stateOf o) /\ opt (stateOf o) = opt s
     end) /\
  (forall cred err w3,
     f ctx reg w2 = Ret (cred, Some err) w3 ->
     o = Ret (auth.EmptyCredential, Some err) (stateOf o) /\
     opt (stateOf o) = opt s) /\
  (forall w3,
     f ctx reg w2 = Panic w3 ->
     o = Panic (stateOf o) /\ opt (stateOf o) = opt s).
Proof.
  revert s. induction pre as [|g pre IH]; intros s Hrun Hf; cbn in Hrun.
  - subst w2. cbn [app rangeCredentialsFuncs map]. unfold bind, call.
    destruct (f ctx reg (world s)) as [[cred [err|]] w3|w3] eqn:Ef; cbn.
    + split; [done|]. split; [done|].
      split; [intros ? ? [=]|]. split; [|intros ? [=]].
      by intros ? ? ? [= <- <- <-].
    + destruct (decide (cred <> auth.EmptyCredential)) as [Hne|He].
      * unfold assignCache. cbn.
        destruct (CredentialsFuncsCache_ (opt s)) as [m|] eqn:Em; cbn;
          (split; [done|]); (split; [done|]);
          (split; [|split; [intros ? ? ? [=]|intros ? [=]]]);
          intros ? ? [= <- <-]; done.
      * destruct (Hf w3).
        destruct (decide (cred = auth.EmptyCredential)) as [->|]; [done|].
        by destruct He.
    + split; [done|]. split; [done|].
      split; [intros ? ? [=]|]. split; [intros ? ? ? [=]|].
      by intros ? [= <-].
  - destruct Hrun as (w1 & Hg & Hrest).
    cbn [app rangeCredentialsFuncs map]. unfold bind, call. rewrite Hg.
    destruct (decide (auth.EmptyCredential <> auth.EmptyCredential));
      [done|].
    pose proof (IH (record (noCredential ctx reg g) (setWorld w1 s))
                  Hrest Hf) as IH1.
    cbn zeta in IH1 |- *. unfold noCredential at 1 2 3 4 5 6 in IH1.
    destruct IH1 as (Hc & Hw & Hok & Herr & Hpanic).
    split; [by rewrite Hc; cbn; rewrite <- app_assoc|].
    split; [done|].
    split; [|split; [exact Herr|exact Hpanic]].
    intros cred w3 Ew. specialize (Hok cred w3 Ew). exact Hok.
Qed.

(** When the auto-login step lets the loop start, the callback for an
    uncached host is the loop, run in the state that the step leaves. *)
Lemma uncached_passed s ctx reg (w1 : World Ext) :
  CredentialsFuncsCache (opt s) !! reg = None ->
  loginPassed s ctx reg w1 ->
  exists pre s1,
    credentialCallback ctx reg s =
      rangeCredentialsFuncs (CredentialsFuncs (opt s)) ctx reg s1 /\
    opt s1 = opt s /\
    world s1 = w1 /\
    calls s1 = calls s ++ pre /\
    calledFuncs pre = [] /\
    callResults pre = [].
Proof.
  intros E Hpass.
  destruct (callback_uncached s ctx reg E) as (pre & s1 & stop & Hl & Ho).
  exists pre, s1. unfold loginPassed in Hpass.
  destruct Hl as [Hh|h w Hh Hlog|h w err Hh Hlog|h w Hh Hlog];
    rewrite Hh in Hpass; cbn.
  - rewrite app_nil_r. by subst w1.
  - rewrite Hlog in Hpass. injection Hpass as ->. done.
  - rewrite Hlog in Hpass. discriminate.
  - rewrite Hlog in Hpass. discriminate.
Qed.

(** *** Anonymous fallback *)

(** C6, amended. For an uncached host, if auto-login is not configured or
    its [Login] returns a nil error, and every configured credential
    function, called in turn in the world that the login and the functions
    before it have left, returns the empty credential with a nil error
    (the list may be empty), the callback returns the empty credential with
    a nil error after calling every function once, in order, in the world
    that the last one leaves, and the options are as before: no cache
    entry is created for the host. *)
Theorem anonymous_fallback s ctx reg (w1 w2 : World Ext) :
  CredentialsFuncsCache (opt s) !! reg = None ->
  loginPassed s ctx reg w1 ->
  noCredentialRun (CredentialsFuncs (opt s)) ctx reg w1 w2 ->
  let o := credentialCallback ctx reg s in
  o = Ret (auth.EmptyCredential, None) (stateOf o) /\
  calledFuncs (since s (stateOf o)) = CredentialsFuncs (opt s) /\
  opt (stateOf o) = opt s /\
  CredentialsFuncsCache (opt (stateOf o)) !! reg = None /\
  world (stateOf o) = w2.
Proof.
  intros E Hpass Hrun o.
  destruct (uncached_passed s ctx reg w1 E Hpass)
    as (pre & s1 & Ho & Hopt & Hw & Hcalls & Hpre & _).
  fold o in Ho. rewrite <- Hw in Hrun.
  destruct (range_exhausts _ ctx reg s1 w2 Hrun) as (s' & Hr & Ho' & Hw' & Hc).
  rewrite Ho, Hr. cbn. split; [done|].
  rewrite (since_app s s'
             (pre ++ map (noCredential ctx reg) (CredentialsFuncs (opt s)))).
  - rewrite calledFuncs_app, Hpre, calledFuncs_noCredential.
    split; [done|]. rewrite Ho', Hopt. done.
  - rewrite Hc, Hcalls. by rewrite <- app_assoc.
Qed.

(** *** Fail-fast *)

(** C3. For an uncached host, if a call of a credential function made by
    the callback returned a non-nil error, the callback returns the empty
    credential with that error, that call is the last call it made, and the
    options are as before: the cache is unchanged and has no entry for the
    host. *)
Theorem fail_fast s ctx reg (credFunc : CredFunc Context Ext)
    (ctx' : Context) (reg' : string) (cred : auth.Credential) (err : error) :
  CredentialsFuncsCache (opt s) !! reg = None ->
  let o := credentialCallback ctx reg s in
  EvCall credFunc ctx' reg' (Some (cred, Some err)) ∈ since s (stateOf o) ->
  o = Ret (auth.EmptyCredential, Some err) (stateOf o) /\
  last (since s (stateOf o)) =
    Some (EvCall credFunc ctx' reg' (Some (cred, Some err))) /\
  opt (stateOf o) = opt s /\
  CredentialsFuncsCache (opt (stateOf o)) !! reg = None.
Proof.
  intros E o Hin.
  destruct (uncached_shape s ctx reg E) as (pre & s1 & stop & Hl & Hs).
  fold o in Hs.
  destruct (LoginEnd_state _ _ _ _ _ _ Hl) as (Hopt & Hcalls & _).
  pose proof (LoginEnd_events _ _ _ _ _ _ Hl) as Hpre.
  destruct stop as [o'|].
  - destruct Hs as [_ Hc]. rewrite (since_app _ _ _ Hc) in Hin.
    by destruct (Hpre _ Hin).
  - destruct Hs as (n & last & Hc & Hend).
    rewrite (since_app _ _ _ Hc) in Hin |- *.
    apply elem_of_app in Hin as [Hin|Hin]; [by destruct (Hpre _ Hin)|].
    apply elem_of_app in Hin as [Hin|Hin].
    { apply elem_of_noCredential in Hin as [f Hf]. congruence. }
    destruct Hend as [s' Ho|k f c s' Hk Hne Hm Ho|k f c s' Hk Hne Hm Ho
                     |k f c e s' Hk Ho|k f s' Hk Ho]; cbn;
      try (apply list_elem_of_singleton in Hin; congruence);
      [by apply elem_of_nil in Hin|].
    apply list_elem_of_singleton in Hin. inversion Hin; subst.
    split; [done|]. split; [by rewrite !app_assoc, last_snoc|].
    split; [congruence|]. by rewrite Ho, Hopt.
Qed.

(** *** Order preservation *)

(** [n] calls that returned no credential, followed by one call of the
    function at index [n]. *)
Lemma prefix_then_one funcs (n : nat) (f : CredFunc Context Ext)
    (r : option (auth.Credential * option error)) :
  funcs !! n = Some f ->
  let results :=
    replicate (length (take n funcs))
      (Some (auth.EmptyCredential, @None error)) ++ [r] in
  take n funcs ++ [f] `prefix_of` funcs /\
  length results = length (take n funcs ++ [f]) /\
  (forall i r0,
     results !! i = Some r0 ->
     r0 <> Some (auth.EmptyCredential, None) ->
     S i = length results).
Proof.
  intros Hn results. subst results. split.
  { rewrite <- (take_S_r _ _ _ Hn). apply prefix_take. }
  split; [by rewrite !length_app, length_replicate|].
  intros i r0 Hi Hr0. rewrite length_app, length_replicate. cbn.
  apply lookup_app_Some in Hi as [Hi|[Hge Hi]].
  - apply lookup_replicate in Hi as [-> _]. done.
  - rewrite length_replicate in Hge, Hi.
    apply list_lookup_singleton_Some in Hi as [Hi _]. lia.
Qed.

(** The calls made for an uncached host are a prefix of the configured
    list, and a call that gave back anything but no credential is the last
    one. *)
Lemma calls_form_a_prefix s ctx reg :
  CredentialsFuncsCache (opt s) !! reg = None ->
  let o := credentialCallback ctx reg s in
  let evs := since s (stateOf o) in
  calledFuncs evs `prefix_of` CredentialsFuncs (opt s) /\
  length (callResults evs) = length (calledFuncs evs) /\
  (forall i r,
     callResults evs !! i = Some r ->
     r <> Some (auth.EmptyCredential, None) ->
     S i = length (callResults evs)) /\
  (forall cred s',
     o = Ret (cred, None) s' -> cred <> auth.EmptyCredential ->
     last (callResults evs) = Some (Some (cred, None))) /\
  (forall s',
     o = Ret (auth.EmptyCredential, None) s' ->
     calledFuncs evs = CredentialsFuncs (opt s)).
Proof.
  intros E o evs.
  destruct (uncached_shape s ctx reg E) as (pre & s1 & stop & Hl & Hs).
  fold o in Hs. clearbody o.
  destruct (LoginEnd_state _ _ _ _ _ _ Hl) as (Hopt & Hcalls & Hpre).
  pose proof (LoginEnd_results _ _ _ _ _ _ Hl) as Hres.
  destruct stop as [o'|].
  - destruct Hs as [Ho Hc]. subst evs. rewrite (since_app _ _ _ Hc).
    rewrite Hpre, Hres. split; [apply prefix_nil|]. split; [done|].
    split; [intros i r Hi; by rewrite lookup_nil in Hi|].
    destruct (LoginEnd_stop _ _ _ _ _ _ Hl) as [[err Hs]|Hs];
      split; intros; congruence.
  - destruct Hs as (n & last & Hc & Hend).
    subst evs. rewrite (since_app _ _ _ Hc).
    rewrite !calledFuncs_app, !callResults_app, Hpre, Hres.
    rewrite calledFuncs_noCredential, callResults_noCredential. cbn.
    set (funcs := CredentialsFuncs (opt s)) in *.
    pose proof (fun f r => prefix_then_one funcs n f r) as Hone.
    destruct Hend as [s' Ho|k f c s' Hk Hne Hm Ho|k f c s' Hk Hne Hm Ho
                     |k f c e s' Hk Ho|k f s' Hk Ho]; cbn.
    + rewrite app_nil_r, (take_ge funcs) by done.
      rewrite app_nil_r. split; [done|].
      split; [by rewrite length_replicate|].
      split; [by intros i r [-> _]%lookup_replicate|].
      split; [|done].
      intros cred s'' Heq Hne. congruence.
    + destruct (Hone f (Some (c, None)) Hk) as (H1 & H2 & H3).
      split; [done|]. split; [done|]. split; [done|].
      split; [|intros s'' [=]; congruence].
      intros cred s'' [= -> ->] _. by rewrite last_snoc.
    + destruct (Hone f (Some (c, None)) Hk) as (H1 & H2 & H3).
      split; [done|]. split; [done|]. split; [done|].
      split; intros; discriminate.
    + destruct (Hone f (Some (c, Some e)) Hk) as (H1 & H2 & H3).
      split; [done|]. split; [done|]. split; [done|].
      split; intros; discriminate.
    + destruct (Hone f None Hk) as (H1 & H2 & H3).
      split; [done|]. split; [done|]. split; [done|].
      split; intros; discriminate.
Qed.

(** The calls made for an uncached host, read off what the login and the
    functions return. *)
Lemma calls_follow_the_results s ctx reg :
  CredentialsFuncsCache (opt s) !! reg = None ->
  let o := credentialCallback ctx reg s in
  let evs := since s (stateOf o) in
  (forall w1 pre f post w2,
     loginPassed s ctx reg w1 ->
     CredentialsFuncs (opt s) = pre ++ f :: post ->
     noCredentialRun pre ctx reg w1 w2 ->
     (forall w3, f ctx reg w2 <> Ret (auth.EmptyCredential, None) w3) ->
     calledFuncs evs = pre ++ [f] /\
     callResults evs =
       replicate (length pre) (Some (auth.EmptyCredential, None))
         ++ [resultOf (f ctx reg w2)] /\
     (forall cred w3,
        f ctx reg w2 = Ret (cred, None) w3 ->
        CredentialsFuncsCache_ (opt s) <> None ->
        o = Ret (cred, None) (stateOf o))) /\
  (forall w1 w2,
     loginPassed s ctx reg w1 ->
     noCredentialRun (CredentialsFuncs (opt s)) ctx reg w1 w2 ->
     calledFuncs evs = CredentialsFuncs (opt s) /\
     o = Ret (auth.EmptyCredential, None) (stateOf o)) /\
  ((forall w1, ~ loginPassed s ctx reg w1) -> calledFuncs evs = []).
Proof.
  intros E o evs. split; [|split].
  - intros w1 pre f post w2 Hpass Hfuncs Hrun Hf.
    destruct (uncached_passed s ctx reg w1 E Hpass)
      as (pre' & s1 & Ho & Hopt & Hw & Hcalls & Hpre & Hres).
    fold o in Ho. rewrite Hfuncs in Ho. rewrite <- Hw in Hrun.
    pose proof (range_stops pre f post ctx reg s1 w2 Hrun Hf) as Hstop.
    cbn zeta in Hstop. rewrite <- Ho in Hstop.
    destruct Hstop as (Hc & _ & Hok & _ & _).
    subst evs.
    rewrite (since_app s (stateOf o)
               (pre' ++ map (noCredential ctx reg) pre
                     ++ [EvCall f ctx reg (resultOf (f ctx reg w2))]))
      by (by rewrite Hc, Hcalls, <- !app_assoc).
    rewrite !calledFuncs_app, !callResults_app, Hpre, Hres.
    rewrite calledFuncs_noCredential, callResults_noCredential.
    split; [done|]. split; [done|].
    intros cred w3 Ew Hm. specialize (Hok cred w3 Ew). rewrite Hopt in Hok.
    destruct (CredentialsFuncsCache_ (opt s)); [by destruct Hok|done].
  - intros w1 w2 Hpass Hrun.
    destruct (uncached_passed s ctx reg w1 E Hpass)
      as (pre' & s1 & Ho & Hopt & Hw & Hcalls & Hpre & Hres).
    fold o in Ho. rewrite <- Hw in Hrun.
    destruct (range_exhausts _ ctx reg s1 w2 Hrun)
      as (s' & Hr & _ & _ & Hc).
    subst evs. rewrite Ho, Hr. cbn.
    rewrite (since_app s s'
               (pre' ++ map (noCredential ctx reg)
                          (CredentialsFuncs (opt s))))
      by (by rewrite Hc, Hcalls, <- app_assoc).
    by rewrite calledFuncs_app, Hpre, calledFuncs_noCredential.
  - intros Hnot.
    destruct (uncached_shape s ctx reg E) as (pre & s1 & stop & Hl & Hs).
    fold o in Hs.
    destruct (LoginEnd_state _ _ _ _ _ _ Hl) as (_ & _ & Hpre).
    destruct stop as [o'|].
    + destruct Hs as [_ Hc]. subst evs. by rewrite (since_app _ _ _ Hc).
    + exfalso. inversion Hl as [Hh|h w Hh Hlog| |]; subst.
      * apply (Hnot (world s1)). unfold loginPassed. by rewrite Hh.
      * apply (Hnot w). unfold loginPassed. by rewrite Hh.
Qed.

(** C4. For an uncached host, the credential functions that the callback
    calls are, in the order of the calls, a prefix of the configured list:
    none is skipped, called twice or called out of order.  A call that
    returned anything but the empty credential with a nil error is the last
    one, so no function after the first one that returned a credential is
    called.  When the callback returns a credential, it is the one of that
    last call; when it returns the empty credential with a nil error, every
    configured function has been called.

    Which functions are called is fixed by what they return.  Let the
    auto-login step pass and leave world [w1].  If the configured list is
    [pre ++ f :: post], the functions of [pre], called in turn from [w1],
    return the empty credential with a nil error, and [f] then gives back
    anything else, the callback calls exactly [pre] and then [f], with those
    results, and none of [post]; when [f] returned a credential with a nil
    error (and the map is not nil), the callback returns that credential.
    If all the configured functions, called in turn from [w1], return the
    empty credential with a nil error, the callback calls them all, in
    order, and returns the empty credential with a nil error.  If the
    auto-login step does not pass, no function is called. *)
Theorem order_preservation s ctx reg :
  CredentialsFuncsCache (opt s) !! reg = None ->
  let o := credentialCallback ctx reg s in
  let evs := since s (stateOf o) in
  calledFuncs evs `prefix_of` CredentialsFuncs (opt s) /\
  length (callResults evs) = length (calledFuncs evs) /\
  (forall i r,
     callResults evs !! i = Some r ->
     r <> Some (auth.EmptyCredential, None) ->
     S i = length (callResults evs)) /\
  (forall cred s',
     o = Ret (cred, None) s' -> cred <> auth.EmptyCredential ->
     last (callResults evs) = Some (Some (cred, None))) /\
  (forall s',
     o = Ret (auth.EmptyCredential, None) s' ->
     calledFuncs evs = CredentialsFuncs (opt s)) /\
  (forall w1 pre f post w2,
     loginPassed s ctx reg w1 ->
     CredentialsFuncs (opt s) = pre ++ f :: post ->
     noCredentialRun pre ctx reg w1 w2 ->
     (forall w3, f ctx reg w2 <> Ret (auth.EmptyCredential, None) w3) ->
     calledFuncs evs = pre ++ [f] /\
     callResults evs =
       replicate (length pre) (Some (auth.EmptyCredential, None))
         ++ [resultOf (f ctx reg w2)] /\
     (forall cred w3,
        f ctx reg w2 = Ret (cred, None) w3 ->
        CredentialsFuncsCache_ (opt s) <> None ->
        o = Ret (cred, None) (stateOf o))) /\
  (forall w1 w2,
     loginPassed s ctx reg w1 ->
     noCredentialRun (CredentialsFuncs (opt s)) ctx reg w1 w2 ->
     calledFuncs evs = CredentialsFuncs (opt s) /\
     o = Ret (auth.EmptyCredential, None) (stateOf o)) /\
  ((forall w1, ~ loginPassed s ctx reg w1) -> calledFuncs evs = []).
Proof.
  intros E o evs.
  destruct (calls_form_a_prefix s ctx reg E) as (H1 & H2 & H3 & H4 & H5).
  destruct (calls_follow_the_results s ctx reg E) as (H6 & H7 & H8).
  repeat (split; [assumption|]). assumption.
Qed.

(** *** The cache across calls *)

Lemma resolveAll_snoc (reqs : list (Context * string)) ctx reg s :
  resolveAll (reqs ++ [(ctx, reg)]) s =
    stateOf (credentialCallback ctx reg (resolveAll reqs s)).
Proof. unfold resolveAll. by rewrite fold_left_app. Qed.

Lemma setCache_opt reg (f : CredFunc Context Ext) s :
  CredentialsFuncsCache (opt (setCache reg f s)) =
    <[reg := f]> (CredentialsFuncsCache (opt s)) /\
  CredentialsFuncs (opt (setCache reg f s)) = CredentialsFuncs (opt s) /\
  AutoLoginHandler_ (opt (setCache reg f s)) = AutoLoginHandler_ (opt s).
Proof. done. Qed.

(** What any sequence of calls of the callback keeps and what it adds:
    the list of credential functions is kept, the record of calls and the
    cache only grow, and an entry that was not there before maps a host to
    a configured function whose call, in a request for that host, returned
    a credential and a nil error. *)
Lemma resolveAll_inv (reqs : list (Context * string)) s0 :
  let s := resolveAll reqs s0 in
  CredentialsFuncs (opt s) = CredentialsFuncs (opt s0) /\
  CredentialsFuncsCache (opt s0) ⊆ CredentialsFuncsCache (opt s) /\
  exists evs,
    calls s = calls s0 ++ evs /\
    forall reg p,
      CredentialsFuncsCache (opt s) !! reg = Some p ->
      CredentialsFuncsCache (opt s0) !! reg = Some p \/
      p ∈ CredentialsFuncs (opt s0) /\
      exists ctx cred,
        (ctx, reg) ∈ reqs /\
        cred <> auth.EmptyCredential /\
        EvCall p ctx reg (Some (cred, None)) ∈ evs.
Proof.
  induction reqs as [|[ctx reg] reqs IH] using rev_ind; intros s.
  - subst s. cbn. split; [done|]. split; [done|].
    exists []. rewrite app_nil_r. split; [done|]. by left.
  - subst s. rewrite resolveAll_snoc.
    cbn zeta in IH. destruct IH as (Hf & Hsub & evs & Hc & Hinv).
    set (s := resolveAll reqs s0) in *.
    destruct (callback_step s ctx reg) as [Hc' Hopt]. cbn zeta in Hopt.
    set (s' := stateOf (credentialCallback ctx reg s)) in *.
    assert (calls s' = calls s0 ++ evs ++ since s s') as Hcs
      by (by rewrite Hc', Hc, <- app_assoc).
    destruct Hopt as [Hopt|(Hmiss & f & cred & Hin & Hne & Hopt & _ & Hlast)].
    + rewrite Hopt. split; [done|]. split; [done|].
      eexists. split; [exact Hcs|]. intros reg' p Hp.
      destruct (Hinv reg' p Hp) as [?|(? & c & cr & ? & ? & ?)]; [by left|].
      right. split; [done|]. exists c, cr. set_solver.
    + rewrite Hopt.
      destruct (setCache_opt reg f s) as (-> & -> & _).
      split; [done|].
      split; [by etrans; [exact Hsub|apply insert_subseteq]|].
      eexists. split; [exact Hcs|]. intros reg' p Hp.
      destruct (decide (reg = reg')) as [<-|Hneq].
      * rewrite lookup_insert_eq in Hp. injection Hp as <-.
        right. split; [congruence|]. exists ctx, cred.
        split; [set_solver|]. split; [done|].
        apply elem_of_app. right.
        rewrite last_lookup in Hlast.
        by eapply list_elem_of_lookup_2.
      * rewrite lookup_insert_ne in Hp by done.
        destruct (Hinv reg' p Hp) as [?|(? & c & cr & ? & ? & ?)];
          [by left|].
        right. split; [done|]. exists c, cr. set_solver.
Qed.

(** A call for an uncached host that returns a credential has cached the
    function whose call came last. *)
Lemma uncached_success s ctx reg cred s1 :
  CredentialsFuncsCache (opt s) !! reg = None ->
  credentialCallback ctx reg s = Ret (cred, None) s1 ->
  cred <> auth.EmptyCredential ->
  exists credFunc,
    credFunc ∈ CredentialsFuncs (opt s) /\
    opt s1 = opt (setCache reg credFunc s) /\
    last (since s s1) = Some (EvCall credFunc ctx reg (Some (cred, None))).
Proof.
  intros E Ho Hne.
  destruct (uncached_shape s ctx reg E) as (pre & s0 & stop & Hl & Hs).
  cbn zeta in Hs. rewrite Ho in Hs. cbn in Hs.
  destruct (LoginEnd_state _ _ _ _ _ _ Hl) as (Hopt & Hcalls & _).
  destruct stop as [o'|].
  - destruct Hs as [<- _].
    destruct (LoginEnd_stop _ _ _ _ _ _ Hl) as [[err Hs]|Hs]; discriminate.
  - destruct Hs as (n & last & Hc & Hend).
    rewrite (since_app _ _ _ Hc).
    inversion Hend as [|k f c s' Hk _ _ Ho'| | |]; subst; [done|].
    exists f. split; [by eapply list_elem_of_lookup_2|].
    split; [by rewrite Ho'; apply setCache_congr|].
    by rewrite !app_assoc, last_snoc.
Qed.

(** *** Cache short-circuit *)

(** C1. If a call of the callback for host [reg] returned a credential
    [cred] with a nil error, obtained from the credential function [p] (the
    call of [p] is the last call it made), then the cache maps [reg] to [p]
    and keeps doing so after any further calls of the callback, for any
    hosts; and every later call for [reg] is the call of [p] and nothing
    else: its outcome is the outcome of [p] (the returned credential and
    error, or the panic), the only call it makes is that one call of [p],
    with no login and no other function, and it leaves the options as they
    were. *)
Theorem cache_short_circuit s0 (ctx0 : Context) reg
    (cred : auth.Credential) s1 (p : CredFunc Context Ext) :
  credentialCallback ctx0 reg s0 = Ret (cred, None) s1 ->
  cred <> auth.EmptyCredential ->
  last (since s0 s1) = Some (EvCall p ctx0 reg (Some (cred, None))) ->
  CredentialsFuncsCache (opt s1) !! reg = Some p /\
  forall (reqs : list (Context * string)) ctx,
    let s2 := resolveAll reqs s1 in
    let o := credentialCallback ctx reg s2 in
    CredentialsFuncsCache (opt s2) !! reg = Some p /\
    match p ctx reg (world s2) with
    | Ret r w =>
        o = Ret r (mkState (opt s2) w
                     (calls s2 ++ [EvCall p ctx reg (Some r)])) /\
        since s2 (stateOf o) = [EvCall p ctx reg (Some r)]
    | Panic w =>
        o = Panic (mkState (opt s2) w
                     (calls s2 ++ [EvCall p ctx reg None])) /\
        since s2 (stateOf o) = [EvCall p ctx reg None]
    end /\
    calledFuncs (since s2 (stateOf o)) = [p].
Proof.
  intros Ho Hne Hlast.
  assert (CredentialsFuncsCache (opt s1) !! reg = Some p) as Hp.
  { destruct (CredentialsFuncsCache (opt s0) !! reg) as [f|] eqn:E.
    - rewrite (callback_cached _ _ _ _ E) in Ho. unfold call in Ho.
      destruct (f ctx0 reg (world s0)) as [r w|w]; [|done].
      injection Ho as -> <-.
      rewrite (since_app s0 _ [EvCall f ctx0 reg (Some (cred, None))])
        in Hlast by done.
      cbn in Hlast. injection Hlast as ->. done.
    - destruct (uncached_success _ _ _ _ _ E Ho Hne) as (f & _ & Hopt & Hl).
      rewrite Hl in Hlast. injection Hlast as ->.
      rewrite Hopt. cbn. apply lookup_insert_eq. }
  split; [done|]. intros reqs ctx s2 o.
  assert (CredentialsFuncsCache (opt s2) !! reg = Some p) as Hp2.
  { destruct (resolveAll_inv reqs s1) as (_ & Hsub & _).
    by eapply lookup_weaken. }
  split; [done|]. subst o.
  rewrite (callback_cached _ _ _ _ Hp2). unfold call.
  destruct (p ctx reg (world s2)) as [r w|w]; cbn;
    rewrite (since_app s2 _ [EvCall p ctx reg _]) by done; done.
Qed.

(** *** Cache invariant *)

(** C7. For a client whose options left the cache as [NewClient] made it,
    empty, and after any sequence of calls of the callback: the cache maps
    a host [reg] to a function [p] only if [p] is a configured function
    and a call of [p] made for a request for [reg] returned a non-empty
    credential with a nil error; the hosts of the cache are pairwise
    distinct (at most one entry per host); further calls never remove nor
    change an entry; and one call either leaves the cache as it was or, for
    a host that had no entry, returns a non-empty credential with a nil
    error and adds the entry of that host, for the function whose call
    returned the credential. *)
Theorem cache_invariant (options : list (Options Context Ext
                                          -> Options Context Ext))
    (w : World Ext) (reqs : list (Context * string)) :
  CredentialsFuncsCache (NewClient_opt options) = ∅ ->
  let s := resolveAll reqs (NewClient_state options w) in
  (forall reg p,
     CredentialsFuncsCache (opt s) !! reg = Some p ->
     p ∈ CredentialsFuncs (NewClient_opt options) /\
     exists ctx cred,
       (ctx, reg) ∈ reqs /\
       cred <> auth.EmptyCredential /\
       EvCall p ctx reg (Some (cred, None)) ∈ calls s) /\
  NoDup (map_to_list (CredentialsFuncsCache (opt s))).*1 /\
  (forall more,
     CredentialsFuncsCache (opt s)
       ⊆ CredentialsFuncsCache (opt (resolveAll more s))) /\
  (forall ctx reg,
     let o := credentialCallback ctx reg s in
     CredentialsFuncsCache (opt (stateOf o)) = CredentialsFuncsCache (opt s)
     \/
     CredentialsFuncsCache (opt s) !! reg = None /\
     exists p cred,
       cred <> auth.EmptyCredential /\
       o = Ret (cred, None) (stateOf o) /\
       last (since s (stateOf o)) =
         Some (EvCall p ctx reg (Some (cred, None))) /\
       CredentialsFuncsCache (opt (stateOf o)) =
         <[reg := p]> (CredentialsFuncsCache (opt s))).
Proof.
  intros Hempty s.
  destruct (resolveAll_inv reqs (NewClient_state options w))
    as (_ & _ & evs & Hc & Hinv). fold s in Hc, Hinv.
  cbn in Hc. split.
  { intros reg p Hp. destruct (Hinv reg p Hp) as [Hp0|[Hin Hev]].
    - cbn in Hp0. rewrite Hempty, lookup_empty in Hp0. done.
    - split; [done|]. by rewrite Hc. }
  split; [apply NoDup_fst_map_to_list|].
  split; [intros more; by destruct (resolveAll_inv more s) as (_ & ? & _)|].
  intros ctx reg o.
  destruct (callback_step s ctx reg) as [_ Hopt]. fold o in Hopt.
  destruct Hopt as [->|(Hmiss & f & cred & _ & Hne & Hopt & Ho & Hlast)];
    [by left|].
  right. split; [done|]. exists f, cred. by rewrite Hopt.
Qed.

(** *** The static credential function *)

(** C10. Let [cred] point to a cell of the heap.  The function that
    [WithCredentials(cred)] appends to the list returns, for every context
    and host, a nil error with the credential that the cell holds in the
    world of the call, whatever it held before: once the cell is
    overwritten, the same function returns the new content.  The call
    leaves the world as it is.  A loop that reaches this function does not
    fail at it: it goes on with the next function when the cell holds the
    empty credential, and otherwise returns the credential of the cell
    with a nil error and caches the function; the function itself has
    returned by then, and only the assignment to a nil map, which
    [NewClient] does not create, makes the loop panic instead. *)
Theorem static_credential (l : nat) (c : auth.Credential) ctx reg
    (w : World Ext) (o : Options Context Ext) :
  heap w !! l = Some c ->
  let f : CredFunc Context Ext := staticCredential (Some l) in
  CredentialsFuncs (WithCredentials (Some l) o) = CredentialsFuncs o ++ [f] /\
  f ctx reg w = Ret (c, None) w /\
  (forall c',
     let w' := mkWorld (<[l := c']> (heap w)) (ext w) in
     f ctx reg w' = Ret (c', None) w') /\
  (forall rest s,
     world s = w ->
     rangeCredentialsFuncs (f :: rest) ctx reg s =
       if decide (c = auth.EmptyCredential) then
         rangeCredentialsFuncs rest ctx reg
           (record (noCredential ctx reg f) s)
       else
         match CredentialsFuncsCache_ (opt s) with
         | Some _ =>
             Ret (c, None)
               (setCache reg f
                  (record (EvCall f ctx reg (Some (c, None))) s))
         | None => Panic (record (EvCall f ctx reg (Some (c, None))) s)
         end).
Proof.
  intros Hl f. split; [done|].
  split; [by unfold f, staticCredential; rewrite Hl|].
  split.
  { intros c' w'. unfold f, staticCredential, w'. cbn.
    by rewrite lookup_insert_eq. }
  intros rest [o' w0 cs] Hw. cbn in Hw. subst w0.
  cbn [rangeCredentialsFuncs]. unfold bind, call, f at 1, staticCredential.
  cbn. rewrite Hl.
  destruct (decide (c = auth.EmptyCredential)) as [->|Hne].
  - destruct (decide (auth.EmptyCredential <> auth.EmptyCredential)); done.
  - destruct (decide (c <> auth.EmptyCredential)); [|done].
    unfold assignCache. cbn. by destruct (CredentialsFuncsCache_ o').
Qed.

(** *** The client that [NewClient] builds *)

Variable oauthStore_Credential : CredFunc Context Ext.
Variable GCPCredential : CredFunc Context Ext.
Variable Store : Type.
Variable credentials_Credential : Store -> CredFunc Context Ext.

Local Abbreviation isPackageOption :=
  (packageOption oauthStore_Credential GCPCredential credentials_Credential).

Lemma packageOptions_Insecure
    (options : list (Options Context Ext -> Options Context Ext))
    (o0 : Options Context Ext) :
  Forall isPackageOption options ->
  Insecure (fold_left (fun opt o => o opt) options o0) = true <->
  Insecure o0 = true \/ WithInsecure ∈ options.
Proof.
  intros Hall. revert o0.
  induction Hall as [|o rest Ho _ IH]; intros o0; cbn.
  - split; [by left|]. intros [?|?%elem_of_nil]; done.
  - rewrite IH, elem_of_cons. split.
    + intros [Hi|Hin]; [|by right; right].
      destruct Ho; cbn in Hi; auto.
    + intros [Hi|[<-|Hin]]; [|by left|by right].
      left. destruct Ho; done.
Qed.

(** The options of this file leave the cache as [NewClient] made it. *)
Lemma packageOptions_cache_fold
    (options : list (Options Context Ext -> Options Context Ext))
    (o0 : Options Context Ext) :
  Forall isPackageOption options ->
  CredentialsFuncsCache (fold_left (fun opt o => o opt) options o0) =
    CredentialsFuncsCache o0.
Proof.
  intros Hall. revert o0.
  induction Hall as [|o rest Ho _ IH]; intros o0; cbn; [done|].
  rewrite IH. by destruct Ho.
Qed.

Lemma packageOptions_cache
    (options : list (Options Context Ext -> Options Context Ext)) :
  Forall isPackageOption options ->
  CredentialsFuncsCache (NewClient_opt options) = ∅.
Proof.
  intros Hall. unfold NewClient_opt.
  by rewrite packageOptions_cache_fold.
Qed.

(** C8. The transport of the client that [NewClient] returns skips the
    verification of certificates exactly when the [Insecure] flag is set
    once the options are applied; for options made by the constructors of
    this file, the flag is set exactly when [WithInsecure] is one of them;
    and when the flag is not set, in particular without any option, the
    transport has no TLS configuration of its own and verifies. *)
Theorem insecure_opt_in
    (options : list (Options Context Ext -> Options Context Ext)) :
  let t := http.Transport_ (Client (NewClient options)) in
  (http.skipsVerification t = true <->
   Insecure (NewClient_opt options) = true) /\
  (Forall isPackageOption options ->
   (http.skipsVerification t = true <-> WithInsecure ∈ options)) /\
  (Insecure (NewClient_opt options) = false ->
   http.TLSClientConfig t = None /\ http.skipsVerification t = false) /\
  http.skipsVerification
    (http.Transport_ (Client (NewClient (Context:=Context) (Ext:=Ext) [])))
    = false.
Proof.
  intros t.
  assert (http.skipsVerification t = Insecure (NewClient_opt options)) as Ht.
  { subst t. cbn. unfold NewClient_transport.
    by destruct (Insecure (NewClient_opt options)). }
  split; [by rewrite Ht|]. split.
  { intros Hall. rewrite Ht. unfold NewClient_opt.
    rewrite (packageOptions_Insecure _ _ Hall). cbn. split; [|by right].
    by intros [?|?]. }
  split; [|done].
  intros Hi. split; [|by rewrite Ht].
  subst t. cbn. unfold NewClient_transport. by rewrite Hi.
Qed.

(** C9. For every list of options, the client that [NewClient] returns
    sends [falcoctl] as its user agent, and its transport dials with a
    timeout of 30s and a keep-alive of 30s, times out idle connections
    after 90s, the TLS handshake after 10s and the wait for a
    [100 Continue] after 1s, keeps at most 100 idle connections, attempts
    HTTP/2, and takes its proxy from the environment.  A second is
    1000000000 nanoseconds, the unit of a duration. *)
Theorem factory_static_configuration
    (options : list (Options Context Ext -> Options Context Ext)) :
  let c := NewClient options in
  let t := http.Transport_ (Client c) in
  http.Header_Get (Header c) "User-Agent" = "falcoctl"%string /\
  Header c = {[ "User-Agent"%string := ["falcoctl"%string] ]} /\
  http.DialContext t =
    Some (net.mkDialer 30000000000%Z 30000000000%Z) /\
  http.IdleConnTimeout t = 90000000000%Z /\
  http.TLSHandshakeTimeout t = 10000000000%Z /\
  http.ExpectContinueTimeout t = 1000000000%Z /\
  http.MaxIdleConns t = 100%Z /\
  http.ForceAttemptHTTP2 t = true /\
  http.Proxy t = Some http.ProxyFromEnvironment /\
  Second = 1000000000%Z /\
  Cache c = ClientTokenCache (NewClient_opt options) /\
  Credential c = credentialCallback.
Proof.
  intros c t. subst t c. cbn. unfold NewClient_transport.
  destruct (Insecure (NewClient_opt options)); cbn; repeat split; done.
Qed.

(** ** Further properties of the callback *)

Lemma since_trans s s' s'' evs evs' :
  calls s' = calls s ++ evs -> calls s'' = calls s' ++ evs' ->
  since s s'' = since s s' ++ since s' s''.
Proof.
  intros H1 H2. rewrite (since_app _ _ _ H1), (since_app _ _ _ H2).
  apply since_app. by rewrite H2, H1, <- app_assoc.
Qed.

(** The record of calls only grows along a sequence of calls of the
    callback, and the login handler stays the one configured. *)
Lemma resolveAll_calls (reqs : list (Context * string)) s :
  calls (resolveAll reqs s) = calls s ++ since s (resolveAll reqs s) /\
  AutoLoginHandler_ (opt (resolveAll reqs s)) = AutoLoginHandler_ (opt s).
Proof.
  induction reqs as [|[ctx reg] reqs [IHc IHh]] using rev_ind.
  - cbn. by rewrite since_refl, app_nil_r.
  - rewrite resolveAll_snoc.
    destruct (callback_step (resolveAll reqs s) ctx reg) as [Hc Hopt].
    cbn zeta in Hopt. split.
    + rewrite (since_trans _ _ _ _ _ IHc Hc), app_assoc, <- IHc. exact Hc.
    + destruct Hopt as [->|(_ & f & c & _ & _ & -> & _)]; [done|].
      by destruct (setCache_opt reg f (resolveAll reqs s)) as (_ & _ & ->).
Qed.

(** The events of one call of the callback, whichever path it takes. *)
Lemma callback_events s ctx reg :
  let o := credentialCallback ctx reg s in
  (exists credFunc res,
     CredentialsFuncsCache (opt s) !! reg = Some credFunc /\
     since s (stateOf o) = [EvCall credFunc ctx reg res] /\
     opt (stateOf o) = opt s /\
     o = match res with
         | Some r => Ret r (stateOf o)
         | None => Panic (stateOf o)
         end) \/
  CredentialsFuncsCache (opt s) !! reg = None /\
  exists pre s1 stop n last,
    LoginEnd s ctx reg pre s1 stop /\
    since s (stateOf o) =
      pre ++ map (noCredential ctx reg) (take n (CredentialsFuncs (opt s)))
          ++ last /\
    match stop with
    | Some o' => o = o' /\ n = 0%nat /\ last = []
    | None => LoopEnd (CredentialsFuncs (opt s)) ctx reg s1 n last o
    end.
Proof.
  intros o.
  destruct (CredentialsFuncsCache (opt s) !! reg) as [f|] eqn:E.
  - left. subst o. rewrite (callback_cached _ _ _ _ E).
    destruct (call_spec f ctx reg s) as (res & w & Hst & Hres).
    exists f, res. split; [done|].
    split; [apply since_app; by rewrite Hst|].
    split; [by rewrite Hst|].
    destruct res as [r|]; destruct Hres as [_ ->]; done.
  - right. split; [done|].
    destruct (uncached_shape s ctx reg E) as (pre & s1 & stop & Hl & Hs).
    fold o in Hs. destruct stop as [o'|].
    + destruct Hs as [Ho Hc]. exists pre, s1, (Some o'), 0%nat, [].
      split; [done|]. split; [|done].
      cbn. rewrite app_nil_r. by apply since_app.
    + destruct Hs as (n & last & Hc & Hend).
      exists pre, s1, None, n, last. split; [done|]. split; [|done].
      by apply since_app.
Qed.

Lemma LoopEnd_last funcs ctx reg s n last
    (o : Outcome (State Context Ext) (auth.Credential * option error)) :
  LoopEnd funcs ctx reg s n last o ->
  last = [] \/ exists credFunc res,
    funcs !! n = Some credFunc /\ last = [EvCall credFunc ctx reg res].
Proof. destruct 1; [by left|right; eauto..]. Qed.

(** X5. Every call that the callback makes, of the login handler or of a
    credential function, is given the context and the host of the request;
    along a sequence of requests, every call made carries the context and
    the host of one of the requests. *)
Theorem calls_use_request_arguments s (reqs : list (Context * string))
    ctx reg :
  Forall (fun e => eventArgs e = (ctx, reg))
    (since s (stateOf (credentialCallback ctx reg s))) /\
  Forall (fun e => eventArgs e ∈ reqs) (since s (resolveAll reqs s)).
Proof.
  assert (forall s ctx reg,
            Forall (fun e => eventArgs e = (ctx, reg))
              (since s (stateOf (credentialCallback ctx reg s)))) as Hone.
  { clear. intros s ctx reg.
    destruct (callback_events s ctx reg)
      as [(f & res & _ & -> & _)
         |(_ & pre & s1 & stop & n & last & Hl & -> & Hs)].
    - by repeat constructor.
    - apply Forall_app. split.
      { apply Forall_forall. intros e He.
        by destruct (LoginEnd_events _ _ _ _ _ _ Hl e He) as [r ->]. }
      apply Forall_app. split.
      { apply Forall_forall. intros e He.
        by apply elem_of_noCredential in He as [f ->]. }
      destruct stop as [o'|]; [by destruct Hs as (_ & _ & ->)|].
      destruct (LoopEnd_last _ _ _ _ _ _ _ Hs) as [->|(f & res & _ & ->)];
        by repeat constructor. }
  split; [apply Hone|].
  clear ctx reg.
  induction reqs as [|[ctx reg] reqs IH] using rev_ind.
  - cbn. by rewrite since_refl.
  - rewrite resolveAll_snoc.
    destruct (resolveAll_calls reqs s) as [Hc _].
    destruct (callback_step (resolveAll reqs s) ctx reg) as [Hc' _].
    rewrite (since_trans _ _ _ _ _ Hc Hc'). apply Forall_app. split.
    + eapply Forall_impl; [exact IH|]. intros e He. set_solver.
    + eapply Forall_impl; [apply Hone|]. cbn. intros e ->. set_solver.
Qed.

Lemma loginResults_app evs1 evs2 :
  loginResults (evs1 ++ evs2) = loginResults evs1 ++ loginResults evs2.
Proof. apply omap_app. Qed.

Lemma loginResults_noCredential ctx reg funcs :
  loginResults (map (noCredential ctx reg) funcs) = [].
Proof. by induction funcs. Qed.

(** X4. A call of the callback calls the login handler at most once: not at
    all for a cached host or without a handler, and otherwise exactly once,
    before any credential function, in the world in which the callback was
    called; when that login fails or panics, it is the only call made. *)
Theorem login_once_first s ctx reg :
  let evs := since s (stateOf (credentialCallback ctx reg s)) in
  match CredentialsFuncsCache (opt s) !! reg, AutoLoginHandler_ (opt s) with
  | None, Some h =>
      let res := match Login h ctx reg (world s) with
                 | Ret r _ => Some r
                 | Panic _ => None
                 end in
      exists rest,
        evs = EvLogin ctx reg res :: rest /\
        loginResults rest = [] /\
        (res <> Some None -> rest = [])
  | _, _ => loginResults evs = []
  end.
Proof.
  intros evs. subst evs.
  destruct (callback_events s ctx reg)
    as [(f & res & -> & -> & _)
       |(-> & pre & s1 & stop & n & last & Hl & -> & Hs)]; [done|].
  assert (loginResults last = []) as Hlast.
  { destruct stop as [o'|]; [by destruct Hs as (_ & _ & ->)|].
    by destruct (LoopEnd_last _ _ _ _ _ _ _ Hs) as [->|(f & res & _ & ->)]. }
  assert (loginResults
            (map (noCredential ctx reg) (take n (CredentialsFuncs (opt s)))
               ++ last) = []) as Hrest
    by (by rewrite loginResults_app, loginResults_noCredential, Hlast).
  inversion Hl as [Hh|h w Hh Hlog|h w err Hh Hlog|h w Hh Hlog]; subst;
    rewrite Hh; cbn zeta; rewrite ?Hlog.
  - done.
  - eexists. split; [done|]. split; [done|]. by intros [].
  - destruct Hs as (_ & -> & ->). by exists [].
  - destruct Hs as (_ & -> & ->). by exists [].
Qed.

(** X6. When the callback returns a non-nil error, the error is the one
    that its last call returned, of the login handler or of a credential
    function, and the options, cache included, are as before; for an
    uncached host the credential returned with the error is the empty one,
    whatever credential the function returned with its error. *)
Theorem error_leaves_options s ctx reg (cred : auth.Credential)
    (err : error) s' :
  credentialCallback ctx reg s = Ret (cred, Some err) s' ->
  opt s' = opt s /\
  (CredentialsFuncsCache (opt s) !! reg = None ->
   cred = auth.EmptyCredential) /\
  (last (since s s') = Some (EvLogin ctx reg (Some (Some err))) \/
   exists credFunc c,
     last (since s s') = Some (EvCall credFunc ctx reg (Some (c, Some err)))).
Proof.
  intros Ho.
  destruct (callback_events s ctx reg)
    as [(f & res & E & Hev & Hopt & Hres)
       |(E & pre & s1 & stop & n & last & Hl & Hev & Hs)];
    rewrite Ho in *; cbn in *.
  - destruct res as [[c e]|]; [|done]. injection Hres as <- <-.
    split; [done|]. split; [by rewrite E|].
    right. exists f, cred. by rewrite Hev.
  - destruct (LoginEnd_state _ _ _ _ _ _ Hl) as (Hopt & _ & _).
    rewrite Hev. destruct stop as [o'|].
    + destruct Hs as (<- & -> & ->).
      inversion Hl as [| |h w e Hh Hlog|]; subst.
      split; [done|]. split; [done|]. by left.
    + inversion Hs as [| | |k f c e s2 Hk Ho'|]; subst.
      split; [congruence|]. split; [done|].
      right. exists f, c. by rewrite !app_assoc, last_snoc.
Qed.

(** Membership in the short lists of results that the proofs below meet. *)
Ltac elem_of_results H :=
  repeat match type of H with
         | _ \/ _ => destruct H as [H|H]
         | _ ∈ _ ++ _ => apply elem_of_app in H as [H|H]
         | _ ∈ _ :: _ => apply elem_of_cons in H as [H|H]
         | _ ∈ replicate _ _ => apply elem_of_replicate in H as [H _]
         | _ ∈ [] => by apply elem_of_nil in H
         | None = Some _ => discriminate H
         end.

Lemma last_replicate_Some {A} (n : nat) (x y : A) :
  last (replicate n x) = Some y -> y = x.
Proof.
  intros H. apply last_Some_elem_of in H.
  by apply elem_of_replicate in H as [-> _].
Qed.

Lemma nil_map_uncached (o : Options Context Ext) reg :
  CredentialsFuncsCache_ o = None -> CredentialsFuncsCache o !! reg = None.
Proof. unfold CredentialsFuncsCache. by intros ->. Qed.

(** X7. The callback panics in exactly two ways: a call that it makes
    panics, of the login handler or of a credential function (a nil
    function value, the nil dereference of [WithCredentials(nil)]), or a
    function has returned a credential with a nil error and the map
    [CredentialsFuncsCache] is nil, so that the assignment to it panics.
    That call is then the last one made, and the options, cache included,
    are as before. *)
Theorem panic_propagation s ctx reg :
  let o := credentialCallback ctx reg s in
  let evs := since s (stateOf o) in
  (o = Panic (stateOf o) <->
   None ∈ callResults evs \/ None ∈ loginResults evs \/
   CredentialsFuncsCache_ (opt s) = None /\
   exists cred,
     cred <> auth.EmptyCredential /\
     last (callResults evs) = Some (Some (cred, None))) /\
  (o = Panic (stateOf o) ->
   opt (stateOf o) = opt s /\
   (last evs = Some (EvLogin ctx reg None) \/
    exists credFunc,
      last evs = Some (EvCall credFunc ctx reg None) \/
      CredentialsFuncsCache_ (opt s) = None /\
      exists cred,
        cred <> auth.EmptyCredential /\
        last evs = Some (EvCall credFunc ctx reg (Some (cred, None))))).
Proof.
  intros o evs. subst evs.
  pose proof (callback_events s ctx reg) as Hcases. cbn zeta in Hcases.
  fold o in Hcases. clearbody o.
  destruct Hcases
    as [(f & res & E & Hev & Hopt & Hres)
       |(E & pre & s1 & stop & n & last & Hl & Hev & Hs)];
    rewrite Hev.
  - destruct res as [r|]; rewrite Hres; cbn.
    + split; [|done]. split; [done|].
      intros [Hin|[Hin|[Hnil _]]]; [elem_of_results Hin..|].
      by rewrite (nil_map_uncached _ reg Hnil) in E.
    + split; [split; [intros _; left; apply list_elem_of_here|done]|].
      intros _. split; [done|]. right. exists f. by left.
  - destruct (LoginEnd_state _ _ _ _ _ _ Hl) as (Hopt & _ & _).
    rewrite !callResults_app, !loginResults_app.
    rewrite callResults_noCredential, loginResults_noCredential.
    rewrite (LoginEnd_results _ _ _ _ _ _ Hl).
    destruct stop as [o'|].
    + destruct Hs as (-> & -> & ->). cbn.
      inversion Hl as [| |h w e Hh Hlog|h w Hh Hlog]; subst; cbn.
      * split; [|done]. split; [done|].
        intros [Hin|[Hin|(_ & c & _ & [=])]]; elem_of_results Hin.
      * split; [|intros _; split; [done|]; by left].
        split; [|done]. intros _. right. left. apply list_elem_of_here.
    + assert (None ∉ loginResults pre) as Hpre.
      { inversion Hl; subst; cbn; intros Hin; elem_of_results Hin. }
      destruct Hs as [s2 Ho|k f c s2 Hk Hne Hm Ho|k f c s2 Hk Hne Hm Ho
                     |k f c e s2 Hk Ho|k f s2 Hk Ho]; cbn.
      * split; [|done]. split; [done|].
        intros [Hin|[Hin|(_ & c & Hc & Hlast)]];
          [elem_of_results Hin; done..|].
        rewrite app_nil_r in Hlast.
        by apply last_replicate_Some in Hlast as [= ->].
      * split; [|done]. split; [done|].
        intros [Hin|[Hin|(Hnil & _)]];
          [elem_of_results Hin; done..|].
        by rewrite Hopt in Hm.
      * split.
        { split; [|done]. intros _. right. right.
          split; [by rewrite <- Hopt|]. exists c. split; [done|].
          by rewrite last_snoc. }
        intros _. split; [congruence|]. right. exists f. right.
        split; [by rewrite <- Hopt|]. exists c. split; [done|].
        by rewrite !app_assoc, last_snoc.
      * split; [|done]. split; [done|].
        intros [Hin|[Hin|(_ & c' & Hc & Hlast)]];
          [elem_of_results Hin; done..|].
        rewrite last_snoc in Hlast. by injection Hlast.
      * split.
        { split; [|done]. intros _. left. apply elem_of_app. right.
          apply list_elem_of_here. }
        intros _. split; [congruence|]. right. exists f. left.
        by rewrite !app_assoc, last_snoc.
Qed.

(** *** The calls and the world *)

Lemma performed_app (handler : option (AutoLoginHandler Context Ext))
    evs1 evs2 (w w1 w2 : World Ext) :
  performed handler evs1 w w1 -> performed handler evs2 w1 w2 ->
  performed handler (evs1 ++ evs2) w w2.
Proof.
  revert w. induction evs1 as [|e evs1 IH]; intros w; cbn.
  - by intros ->.
  - destruct e as [ctx reg res|f ctx reg res].
    + intros (h & w' & Hh & Hl & Hp) H2. exists h, w'. eauto.
    + intros (w' & Hf & Hp) H2. exists w'. eauto.
Qed.

Lemma call_performed handler (f : CredFunc Context Ext) ctx reg s :
  exists res,
    calls (stateOf (call f ctx reg s)) = calls s ++ [EvCall f ctx reg res] /\
    performed handler [EvCall f ctx reg res] (world s)
      (world (stateOf (call f ctx reg s))).
Proof.
  unfold call. destruct (f ctx reg (world s)) as [r w|w] eqn:Hf.
  - exists (Some r). split; [done|]. by exists w.
  - exists None. split; [done|]. by exists w.
Qed.

Lemma range_performed handler funcs ctx reg s :
  exists evs,
    calls (stateOf (rangeCredentialsFuncs funcs ctx reg s)) = calls s ++ evs /\
    performed handler evs (world s)
      (world (stateOf (rangeCredentialsFuncs funcs ctx reg s))).
Proof.
  revert s. induction funcs as [|f rest IH]; intros s.
  - exists []. by rewrite app_nil_r.
  - cbn [rangeCredentialsFuncs]. unfold bind, call.
    destruct (f ctx reg (world s)) as [[cred [err|]] w|w] eqn:Hf.
    + exists [EvCall f ctx reg (Some (cred, Some err))].
      split; [done|]. by exists w.
    + destruct (decide (cred <> auth.EmptyCredential)).
      * exists [EvCall f ctx reg (Some (cred, None))].
        unfold assignCache. cbn.
        destruct (CredentialsFuncsCache_ (opt s));
          (split; [done|]); by exists w.
      * set (s1 := record _ (setWorld w s)).
        destruct (IH s1) as (evs & Hc & Hp).
        exists (EvCall f ctx reg (Some (cred, None)) :: evs). split.
        { rewrite Hc. cbn. by rewrite <- app_assoc. }
        exists w. split; [done|]. exact Hp.
    + exists [EvCall f ctx reg None]. split; [done|]. by exists w.
Qed.

Lemma LoginEnd_performed s ctx reg pre s1 stop :
  LoginEnd s ctx reg pre s1 stop ->
  performed (AutoLoginHandler_ (opt s)) pre (world s) (world s1) /\
  match stop with
  | Some o => stateOf o = s1
  | None => True
  end.
Proof.
  destruct 1; cbn; (split; [|done]); try done; eexists _, _; eauto.
Qed.

(** X10. The record of the calls is exact and the callback does nothing
    else to the world: made one after the other from the world in which the
    callback (or a sequence of calls of it) starts, the recorded calls give
    back what the record says and leave the world in which it ends. *)
Theorem effects_are_the_calls s (reqs : list (Context * string)) ctx reg :
  performed (AutoLoginHandler_ (opt s))
    (since s (stateOf (credentialCallback ctx reg s)))
    (world s) (world (stateOf (credentialCallback ctx reg s))) /\
  performed (AutoLoginHandler_ (opt s))
    (since s (resolveAll reqs s))
    (world s) (world (resolveAll reqs s)).
Proof.
  assert (forall s ctx reg,
            performed (AutoLoginHandler_ (opt s))
              (since s (stateOf (credentialCallback ctx reg s)))
              (world s) (world (stateOf (credentialCallback ctx reg s))))
    as Hone.
  { clear. intros s ctx reg.
    destruct (CredentialsFuncsCache (opt s) !! reg) as [f|] eqn:E.
    - rewrite (callback_cached _ _ _ _ E).
      destruct (call_performed (AutoLoginHandler_ (opt s)) f ctx reg s)
        as (res & Hc & Hp).
      by rewrite (since_app _ _ _ Hc).
    - destruct (callback_uncached s ctx reg E)
        as (pre & s1 & stop & Hl & ->).
      destruct (LoginEnd_state _ _ _ _ _ _ Hl) as (Hopt & Hcalls & _).
      destruct (LoginEnd_performed _ _ _ _ _ _ Hl) as [Hp Hstop].
      destruct stop as [o'|].
      + rewrite Hstop, (since_app _ _ _ Hcalls). exact Hp.
      + destruct (range_performed (AutoLoginHandler_ (opt s))
                    (CredentialsFuncs (opt s)) ctx reg s1)
          as (evs & Hc & Hp').
        rewrite (since_app _ _ (pre ++ evs)).
        * by eapply performed_app.
        * by rewrite Hc, Hcalls, <- app_assoc. }
  split; [apply Hone|]. clear ctx reg.
  induction reqs as [|[ctx reg] reqs IH] using rev_ind.
  - cbn. by rewrite since_refl.
  - rewrite resolveAll_snoc.
    destruct (resolveAll_calls reqs s) as [Hc Hh].
    destruct (callback_step (resolveAll reqs s) ctx reg) as [Hc' _].
    rewrite (since_trans _ _ _ _ _ Hc Hc').
    eapply performed_app; [exact IH|]. rewrite <- Hh. apply Hone.
Qed.

(** X3. The callback never calls a function that was not configured: if
    every function that the cache holds is one of the configured ones, as
    in the empty cache of a new client, then every function called along
    any sequence of requests is one of the configured ones. *)
Theorem calls_only_configured s (reqs : list (Context * string)) :
  (forall reg p,
     CredentialsFuncsCache (opt s) !! reg = Some p ->
     p ∈ CredentialsFuncs (opt s)) ->
  forall credFunc,
    credFunc ∈ calledFuncs (since s (resolveAll reqs s)) ->
    credFunc ∈ CredentialsFuncs (opt s).
Proof.
  intros Hcache.
  induction reqs as [|[ctx reg] reqs IH] using rev_ind; intros g Hg.
  - cbn in Hg. rewrite since_refl in Hg. by apply elem_of_nil in Hg.
  - rewrite resolveAll_snoc in Hg.
    destruct (resolveAll_calls reqs s) as [Hc _].
    destruct (callback_step (resolveAll reqs s) ctx reg) as [Hc' _].
    rewrite (since_trans _ _ _ _ _ Hc Hc'), calledFuncs_app in Hg.
    apply elem_of_app in Hg as [Hg|Hg]; [by apply IH|].
    destruct (resolveAll_inv reqs s) as (Hf & _ & evs & _ & Hinv).
    cbn zeta in Hf, Hinv. set (sk := resolveAll reqs s) in *.
    destruct (callback_events sk ctx reg)
      as [(f & res & E & Hev & _)
         |(E & pre & s1 & stop & n & last & Hl & Hev & Hs)];
      cbn zeta in Hev; rewrite Hev in Hg.
    + cbn in Hg. apply list_elem_of_singleton in Hg as ->.
      destruct (Hinv reg f E) as [?|[? _]]; eauto.
    + destruct (LoginEnd_state _ _ _ _ _ _ Hl) as (_ & _ & Hpre).
      rewrite !calledFuncs_app, Hpre, calledFuncs_noCredential, Hf in Hg.
      cbn in Hg. apply elem_of_app in Hg as [Hg|Hg].
      { apply elem_of_take in Hg as (i & Hi & _).
        by eapply list_elem_of_lookup_2. }
      destruct stop as [o'|].
      { destruct Hs as (_ & _ & ->). by apply elem_of_nil in Hg. }
      destruct (LoopEnd_last _ _ _ _ _ _ _ Hs) as [->|(f & res & Hn & ->)].
      { by apply elem_of_nil in Hg. }
      cbn in Hg. apply list_elem_of_singleton in Hg as ->.
      rewrite Hf in Hn. by eapply list_elem_of_lookup_2.
Qed.

(** X8. The cache is bounded by the requests: after any sequence of
    requests, the hosts of the cache are those it had before and hosts that
    were requested, and the cache has at most one more entry for each
    request made. *)
Theorem cache_growth_bound s (reqs : list (Context * string)) :
  dom (CredentialsFuncsCache (opt (resolveAll reqs s)))
    ⊆ dom (CredentialsFuncsCache (opt s)) ∪ list_to_set (reqs.*2) /\
  size (CredentialsFuncsCache (opt (resolveAll reqs s)))
    <= size (CredentialsFuncsCache (opt s)) + length reqs.
Proof.
  induction reqs as [|[ctx reg] reqs [IHd IHs]] using rev_ind.
  - cbn. split; [|lia]. intros x Hx. apply elem_of_union. by left.
  - rewrite resolveAll_snoc, fmap_app, list_to_set_app_L, length_app.
    destruct (callback_step (resolveAll reqs s) ctx reg) as [_ Hopt].
    cbn zeta in Hopt.
    destruct Hopt as [->|(Hmiss & f & c & _ & _ & -> & _)].
    + split; [|lia]. intros x Hx. apply IHd in Hx.
      apply elem_of_union in Hx as [Hx|Hx]; apply elem_of_union;
        [by left|right]. apply elem_of_union. by left.
    + destruct (setCache_opt reg f (resolveAll reqs s)) as (-> & _ & _).
      rewrite dom_insert_L, map_size_insert_None by done.
      split; [|cbn; lia].
      intros x Hx. apply elem_of_union in Hx as [Hx|Hx].
      * apply elem_of_singleton in Hx as ->.
        apply elem_of_union. right. apply elem_of_union. right. cbn.
        apply elem_of_union. left. by apply elem_of_singleton.
      * apply IHd in Hx.
        apply elem_of_union in Hx as [Hx|Hx]; apply elem_of_union;
          [by left|right]. apply elem_of_union. by left.
Qed.

(** *** Precedence among the credential functions *)

(** X9. The first configured function that has a credential wins.  For an
    uncached host and a map that is not nil, let the auto-login step pass
    and leave world [w1].  If the configured list is [pre ++ f :: post],
    the functions of [pre], called in turn from [w1], each in the world
    that the one before left, return the empty credential with a nil
    error, and [f], called in the world [w2] that they leave, returns the
    non-empty credential [c] with a nil error, then the callback returns
    [c] with a nil error, adds to the cache the entry of the host for [f],
    has called the functions of [pre] and then [f], and none of [post], and
    ends in the world that [f] left. *)
Theorem first_credential_wins s ctx reg
    (pre : list (CredFunc Context Ext)) (f : CredFunc Context Ext)
    (post : list (CredFunc Context Ext)) (c : auth.Credential)
    (w1 w2 w3 : World Ext) :
  CredentialsFuncsCache (opt s) !! reg = None ->
  CredentialsFuncsCache_ (opt s) <> None ->
  loginPassed s ctx reg w1 ->
  CredentialsFuncs (opt s) = pre ++ f :: post ->
  noCredentialRun pre ctx reg w1 w2 ->
  f ctx reg w2 = Ret (c, None) w3 ->
  c <> auth.EmptyCredential ->
  let o := credentialCallback ctx reg s in
  o = Ret (c, None) (stateOf o) /\
  CredentialsFuncsCache (opt (stateOf o)) =
    <[reg := f]> (CredentialsFuncsCache (opt s)) /\
  calledFuncs (since s (stateOf o)) = pre ++ [f] /\
  world (stateOf o) = w3.
Proof.
  intros E Hm Hpass Hfuncs Hrun Hf Hne o.
  destruct (uncached_passed s ctx reg w1 E Hpass)
    as (pre' & s1 & Ho & Hopt & Hw & Hcalls & Hpre & _).
  fold o in Ho. rewrite Hfuncs in Ho. rewrite <- Hw in Hrun.
  assert (forall w, f ctx reg w2 <> Ret (auth.EmptyCredential, None) w)
    as Hstop by (rewrite Hf; intros w [= -> _]; by destruct Hne).
  pose proof (range_stops pre f post ctx reg s1 w2 Hrun Hstop) as Hs.
  cbn zeta in Hs. rewrite <- Ho in Hs.
  destruct Hs as (Hc & Hw3 & Hok & _ & _).
  specialize (Hok c w3 Hf). rewrite Hopt in Hok.
  destruct (CredentialsFuncsCache_ (opt s)) as [m|] eqn:Em; [|done].
  destruct Hok as [Hret Hopt'].
  split; [done|].
  split; [by rewrite Hopt', (setCache_congr _ _ _ _ Hopt)|].
  split; [|by rewrite Hw3, Hf].
  rewrite (since_app s (stateOf o)
             (pre' ++ map (noCredential ctx reg) pre
                   ++ [EvCall f ctx reg (resultOf (f ctx reg w2))]))
    by (by rewrite Hc, Hcalls, <- !app_assoc).
  by rewrite !calledFuncs_app, Hpre, calledFuncs_noCredential.
Qed.

(** *** [EmptyCredentialFunc] *)

(** The result, the options and the world in which the loop ends do not
    depend on the calls recorded before it. *)
Lemma range_forgetCalls funcs ctx reg s t :
  opt s = opt t -> world s = world t ->
  forgetCalls (rangeCredentialsFuncs funcs ctx reg s) =
    forgetCalls (rangeCredentialsFuncs funcs ctx reg t).
Proof.
  revert s t. induction funcs as [|f rest IH]; intros s t Ho Hw.
  - cbn. by rewrite Ho, Hw.
  - cbn [rangeCredentialsFuncs]. unfold bind, call. rewrite Hw.
    destruct (f ctx reg (world t)) as [[cred [err|]] w|w].
    + cbn. by rewrite Ho.
    + destruct (decide (cred <> auth.EmptyCredential)).
      * unfold assignCache. cbn. rewrite Ho.
        destruct (CredentialsFuncsCache_ (opt t)); cbn.
        -- unfold setCache. cbn. by rewrite Ho.
        -- by rewrite Ho.
      * by apply IH.
    + cbn. by rewrite Ho.
Qed.

(** X11. [EmptyCredentialFunc] is neutral in the list of credential
    functions: wherever it stands in the list, the loop ends with the same
    credential and error (or the same panic), the same options, cache
    included, and the same world as without it. *)
Theorem EmptyCredentialFunc_neutral
    (pre post : list (CredFunc Context Ext)) ctx reg s :
  forgetCalls
    (rangeCredentialsFuncs (pre ++ EmptyCredentialFunc :: post) ctx reg s) =
  forgetCalls (rangeCredentialsFuncs (pre ++ post) ctx reg s).
Proof.
  revert s. induction pre as [|f pre IH]; intros s;
    cbn [app rangeCredentialsFuncs]; unfold bind, call.
  - cbn. destruct (decide (auth.EmptyCredential <> auth.EmptyCredential));
      [done|].
    by apply range_forgetCalls.
  - destruct (f ctx reg (world s)) as [[cred [err|]] w|w]; [done| |done].
    destruct (decide (cred <> auth.EmptyCredential)); [done|]. apply IH.
Qed.

(** *** A static credential behind the cache *)

(** X12. The cache keeps the function, not the credential.  When the cache
    maps a host to the function of [WithCredentials(cred)] and [cred] points
    to a cell, the callback returns for that host the credential that the
    cell holds now with a nil error, even when it is the empty credential:
    it calls no other function and no login, and it leaves the options,
    hence the entry, and the world as they are. *)
Theorem cached_static_credential s ctx reg (l : nat) (c : auth.Credential) :
  CredentialsFuncsCache (opt s) !! reg = Some (staticCredential (Some l)) ->
  heap (world s) !! l = Some c ->
  let o := credentialCallback ctx reg s in
  o = Ret (c, None) (stateOf o) /\
  since s (stateOf o) =
    [EvCall (staticCredential (Some l)) ctx reg (Some (c, None))] /\
  opt (stateOf o) = opt s /\
  world (stateOf o) = world s.
Proof.
  intros E Hl o. subst o. rewrite (callback_cached _ _ _ _ E).
  unfold call.
  assert (staticCredential (Some l) ctx reg (world s) =
            Ret (c, None) (world s)) as ->
    by (by unfold staticCredential; rewrite Hl).
  cbn. split; [done|]. split; [by apply since_app|done].
Qed.

(** *** How the options compose *)

Local Abbreviation zeroOptions :=
  (mkOptions (Context:=Context) (Ext:=Ext) None (Some ∅) [] None None false).

Lemma packageOption_funcs (o : Options Context Ext -> Options Context Ext)
    (c : Options Context Ext) :
  isPackageOption o ->
  CredentialsFuncs (o c) =
    CredentialsFuncs c ++ CredentialsFuncs (o zeroOptions).
Proof. destruct 1; cbn; by rewrite ?app_nil_r. Qed.

Lemma packageOptions_funcs_fold
    (options : list (Options Context Ext -> Options Context Ext))
    (o0 : Options Context Ext) :
  Forall isPackageOption options ->
  CredentialsFuncs (fold_left (fun opt o => o opt) options o0) =
    CredentialsFuncs o0 ++ CredentialsFuncs (NewClient_opt options).
Proof.
  intros Hall. unfold NewClient_opt. revert o0.
  induction Hall as [|o rest Ho _ IH]; intros o0; cbn.
  - by rewrite app_nil_r.
  - rewrite (IH (o o0)), (IH (o zeroOptions)), (packageOption_funcs o o0 Ho).
    by rewrite app_assoc.
Qed.

(** X1. The order of the options is the order of the credential functions:
    for options made by the constructors of this file, the list of
    functions that [NewClient] configures for the options [os1 ++ os2] is
    the list configured for [os1] followed by the list configured for
    [os2]; an option that sets a field contributes nothing to the list and
    an option that adds a source contributes its one function. *)
Theorem option_order_is_function_order
    (os1 os2 : list (Options Context Ext -> Options Context Ext)) :
  Forall isPackageOption os2 ->
  CredentialsFuncs (NewClient_opt (os1 ++ os2)) =
    CredentialsFuncs (NewClient_opt os1)
      ++ CredentialsFuncs (NewClient_opt os2) /\
  Forall (fun o => length (CredentialsFuncs (NewClient_opt [o])) <= 1) os2.
Proof.
  intros Hall. split.
  - unfold NewClient_opt at 1. rewrite fold_left_app.
    by apply packageOptions_funcs_fold.
  - eapply Forall_impl; [exact Hall|]. intros o Ho. destruct Ho; cbn; lia.
Qed.

Lemma packageOptions_handler_fold
    (options : list (Options Context Ext -> Options Context Ext))
    (o0 : Options Context Ext) :
  Forall isPackageOption options ->
  (forall h, WithAutoLogin h ∉ options) ->
  AutoLoginHandler_ (fold_left (fun opt o => o opt) options o0) =
    AutoLoginHandler_ o0.
Proof.
  intros Hall. revert o0.
  induction Hall as [|o rest Ho _ IH]; intros o0 Hnot; cbn; [done|].
  rewrite IH.
  - destruct Ho; try done. destruct (Hnot handler). apply list_elem_of_here.
  - intros h Hh. apply (Hnot h). by apply list_elem_of_further.
Qed.

Lemma packageOptions_tokenCache_fold
    (options : list (Options Context Ext -> Options Context Ext))
    (o0 : Options Context Ext) :
  Forall isPackageOption options ->
  (forall c, WithClientTokenCache c ∉ options) ->
  ClientTokenCache (fold_left (fun opt o => o opt) options o0) =
    ClientTokenCache o0.
Proof.
  intros Hall. revert o0.
  induction Hall as [|o rest Ho _ IH]; intros o0 Hnot; cbn; [done|].
  rewrite IH.
  - destruct Ho; try done. destruct (Hnot cache). apply list_elem_of_here.
  - intros c Hc. apply (Hnot c). by apply list_elem_of_further.
Qed.

(** X2. For a field that an option sets, the last option wins and the other
    options leave it alone.  Among options made by the constructors of this
    file: the login handler of the client is the one of the last
    [WithAutoLogin], whatever options come before it, and is nil when there
    is none; likewise the token cache of the client is the one of the last
    [WithClientTokenCache], and is nil when there is none. *)
Theorem last_setting_wins
    (os1 os2 : list (Options Context Ext -> Options Context Ext))
    (h : option (AutoLoginHandler Context Ext)) (c : option auth_Cache) :
  Forall isPackageOption os2 ->
  ((forall h', WithAutoLogin h' ∉ os2) ->
   AutoLoginHandler_ (NewClient_opt (os1 ++ WithAutoLogin h :: os2)) = h /\
   AutoLoginHandler_ (NewClient_opt os2) = None) /\
  ((forall c', WithClientTokenCache c' ∉ os2) ->
   Cache (NewClient (os1 ++ WithClientTokenCache c :: os2)) = c /\
   Cache (NewClient os2) = None).
Proof.
  intros Hall. split; intros Hnot.
  - unfold NewClient_opt. rewrite fold_left_app. cbn.
    by rewrite !packageOptions_handler_fold.
  - cbn. unfold NewClient_opt. rewrite fold_left_app. cbn.
    by rewrite !packageOptions_tokenCache_fold.
Qed.

End AuthnProperties.

(** ** The properties on concrete clients *)

Import Examples.

(** Scenario A: the store has nothing, the token source answers; the token
    is returned and the token source is cached for the host. *)
Example scenario_A :
  let o := credentialCallback 0%nat host stateA in
  o = Ret (token "T1", None) (stateOf o) /\
  CredentialsFuncsCache (opt (stateOf o)) !! host = Some (oauth "T1") /\
  calledFuncs (calls (stateOf o)) = [storeNone; oauth "T1"].
Proof. vm_compute. done. Qed.

(** With three sources of which the second answers, the third is not
    called; the next request for the host calls the second alone. *)
Example scenario_three :
  let s1 := resolveAll [(0%nat, host)] stateThree in
  calledFuncs (calls s1) = [storeNone; oauth "T1"] /\
  calledFuncs (since s1 (resolveAll [(1%nat, host)] s1)) = [oauth "T1"].
Proof. vm_compute. done. Qed.

(** Scenario C: the error of the failing source is returned and the cache
    stays empty. *)
Example scenario_C :
  let o := credentialCallback 0%nat "y.io" stateC in
  o = Ret (auth.EmptyCredential, Some "disk read failed"%string) (stateOf o) /\
  CredentialsFuncsCache (opt (stateOf o)) = ∅.
Proof. vm_compute. done. Qed.

Lemma cache_short_circuit_witness :
  let s1 := stateOf (credentialCallback 0%nat host stateA) in
  credentialCallback 0%nat host stateA = Ret (token "T1", None) s1 /\
  CredentialsFuncsCache (opt s1) !! host = Some (oauth "T1") /\
  forall (reqs : list (nat * string)) (ctx : nat),
    calledFuncs
      (since (resolveAll reqs s1)
         (stateOf (credentialCallback ctx host (resolveAll reqs s1))))
    = [oauth "T1"].
Proof.
  intros s1.
  assert (credentialCallback 0%nat host stateA = Ret (token "T1", None) s1)
    as Ho by (vm_compute; reflexivity).
  split; [exact Ho|].
  destruct (cache_short_circuit nat nat stateA 0%nat host (token "T1") s1
              (oauth "T1") Ho) as [Hp Hlater].
  - discriminate.
  - vm_compute. reflexivity.
  - split; [exact Hp|]. intros reqs ctx. apply (Hlater reqs ctx).
Defined.

Lemma fail_fast_witness :
  let o := credentialCallback 0%nat "y.io" stateC in
  let e := EvCall (failing "disk read failed") 0%nat "y.io"
             (Some (auth.EmptyCredential, Some "disk read failed"%string)) in
  CredentialsFuncsCache (opt stateC) !! "y.io" = None /\
  e ∈ since stateC (stateOf o) /\
  o = Ret (auth.EmptyCredential, Some "disk read failed"%string) (stateOf o) /\
  last (since stateC (stateOf o)) = Some e /\
  opt (stateOf o) = opt stateC /\
  CredentialsFuncsCache (opt (stateOf o)) !! "y.io" = None.
Proof.
  intros o e.
  assert (e ∈ since stateC (stateOf o)) as He
    by (vm_compute; apply list_elem_of_here).
  split; [reflexivity|]. split; [exact He|].
  apply (fail_fast nat nat stateC 0%nat "y.io" (failing "disk read failed")
           0%nat "y.io" auth.EmptyCredential "disk read failed");
    [reflexivity|exact He].
Defined.

Lemma order_preservation_witness :
  let o := credentialCallback 0%nat host stateStatic in
  let evs := since stateStatic (stateOf o) in
  CredentialsFuncsCache (opt stateStatic) !! host = None /\
  calledFuncs evs `prefix_of` CredentialsFuncs (opt stateStatic) /\
  calledFuncs evs =
    [staticCredential (Some 2%nat)] ++ [staticCredential (Some 1%nat)] /\
  callResults evs =
    replicate 1 (Some (auth.EmptyCredential, None))
      ++ [Some (basic "u" "p", None)] /\
  o = Ret (basic "u" "p", None) (stateOf o).
Proof.
  intros o evs. split; [reflexivity|].
  destruct (order_preservation nat nat stateStatic 0%nat host eq_refl)
    as (Hprefix & _ & _ & _ & _ & Hstop & _ & _).
  split; [exact Hprefix|].
  destruct (Hstop wEmpty [staticCredential (Some 2%nat)]
              (staticCredential (Some 1%nat)) [oauth "T2"] wEmpty)
    as (Hfuncs & Hres & Hret).
  - reflexivity.
  - reflexivity.
  - exists wEmpty. split; reflexivity.
  - intros w3 H. vm_compute in H. discriminate H.
  - split; [exact Hfuncs|]. split; [exact Hres|].
    apply (Hret (basic "u" "p") wEmpty); [reflexivity|discriminate].
Defined.

Lemma autologin_gating_witness :
  let o := credentialCallback 0%nat host stateLogin in
  CredentialsFuncsCache (opt stateLogin) !! host = None /\
  AutoLoginHandler_ (opt stateLogin) = Some (loginFails "login failed") /\
  Login (loginFails "login failed") 0%nat host (world stateLogin) =
    Ret (Some "login failed"%string) w0 /\
  o = Ret (auth.EmptyCredential, Some "login failed"%string) (stateOf o) /\
  since stateLogin (stateOf o) =
    [EvLogin 0%nat host (Some (Some "login failed"%string))] /\
  calledFuncs (since stateLogin (stateOf o)) = [] /\
  opt (stateOf o) = opt stateLogin /\
  world (stateOf o) = w0.
Proof.
  intros o. split; [reflexivity|]. split; [reflexivity|].
  split; [reflexivity|].
  apply (autologin_gating nat nat stateLogin 0%nat host
           (loginFails "login failed") "login failed" w0); reflexivity.
Defined.

(** C6 as stated fails: with an auto-login handler whose [Login] fails and
    an empty list of credential functions, the host is uncached and every
    configured function returns the empty credential with a nil error, yet
    the callback returns the error of the login. *)
Lemma anonymous_fallback_counterexample :
  ~ (CredentialsFuncsCache (opt stateLoginOnly) !! "y.io" = None ->
     (forall credFunc, credFunc ∈ CredentialsFuncs (opt stateLoginOnly) ->
        forall w, exists w',
          credFunc 0%nat "y.io"%string w =
            Ret (auth.EmptyCredential, None) w') ->
     exists s',
       credentialCallback 0%nat "y.io" stateLoginOnly =
         Ret (auth.EmptyCredential, None) s').
Proof.
  intros H. destruct H as [s' Hs'].
  - reflexivity.
  - intros f Hf. by apply elem_of_nil in Hf.
  - vm_compute in Hs'. discriminate Hs'.
Qed.

Lemma anonymous_fallback_witness :
  let o := credentialCallback 0%nat host stateEmptyCell in
  CredentialsFuncsCache (opt stateEmptyCell) !! host = None /\
  loginPassed stateEmptyCell 0%nat host wEmpty /\
  noCredentialRun (CredentialsFuncs (opt stateEmptyCell)) 0%nat host
    wEmpty (lookedUp wEmpty) /\
  o = Ret (auth.EmptyCredential, None) (stateOf o) /\
  calledFuncs (since stateEmptyCell (stateOf o)) =
    CredentialsFuncs (opt stateEmptyCell) /\
  opt (stateOf o) = opt stateEmptyCell /\
  CredentialsFuncsCache (opt (stateOf o)) !! host = None /\
  world (stateOf o) = lookedUp wEmpty.
Proof.
  intros o.
  assert (noCredentialRun (CredentialsFuncs (opt stateEmptyCell)) 0%nat host
            wEmpty (lookedUp wEmpty)) as Hrun.
  { exists wEmpty. split; [reflexivity|].
    exists (lookedUp wEmpty). split; reflexivity. }
  split; [reflexivity|]. split; [reflexivity|]. split; [exact Hrun|].
  apply (anonymous_fallback nat nat stateEmptyCell 0%nat host
           wEmpty (lookedUp wEmpty)); [reflexivity|reflexivity|exact Hrun].
Defined.

Lemma cache_invariant_witness :
  let options := [withFunc storeNone; withFunc (oauth "T1")] in
  let s := resolveAll [(0%nat, host); (1%nat, "y.io"%string)]
             (NewClient_state options w0) in
  CredentialsFuncsCache (NewClient_opt options) = ∅ /\
  (forall reg p,
     CredentialsFuncsCache (opt s) !! reg = Some p ->
     p ∈ CredentialsFuncs (NewClient_opt options) /\
     exists ctx cred,
       (ctx, reg) ∈ [(0%nat, host); (1%nat, "y.io"%string)] /\
       cred <> auth.EmptyCredential /\
       EvCall p ctx reg (Some (cred, None)) ∈ calls s) /\
  NoDup (map_to_list (CredentialsFuncsCache (opt s))).*1 /\
  (forall more,
     CredentialsFuncsCache (opt s)
       ⊆ CredentialsFuncsCache (opt (resolveAll more s))).
Proof.
  intros options s. split; [reflexivity|].
  destruct (cache_invariant nat nat options w0
              [(0%nat, host); (1%nat, "y.io"%string)] eq_refl)
    as (H1 & H2 & H3 & _).
  split; [exact H1|]. split; [exact H2|exact H3].
Defined.

Lemma static_credential_witness :
  heap w0 !! 1%nat = Some (basic "u" "p") /\
  staticCredential (Context:=nat) (Some 1%nat) 0%nat host w0 =
    Ret (basic "u" "p", None) w0 /\
  forall c',
    let w' := mkWorld (<[1%nat := c']> (heap w0)) (ext w0) in
    staticCredential (Context:=nat) (Some 1%nat) 0%nat host w' =
      Ret (c', None) w'.
Proof.
  split; [reflexivity|].
  destruct (static_credential nat nat 1%nat (basic "u" "p") 0%nat host w0
              (NewClient_opt []) eq_refl) as (_ & H2 & H3 & _).
  split; [exact H2|exact H3].
Defined.

Lemma insecure_opt_in_witness :
  let options : list (Options nat nat -> Options nat nat) :=
    [WithCredentials (Some 1%nat); WithInsecure] in
  Forall (packageOption (oauth "T1") storeNone (fun _ : unit => storeNone))
    options /\
  (http.skipsVerification (http.Transport_ (Client (NewClient options))) = true
   <-> WithInsecure ∈ options).
Proof.
  intros options.
  assert (Forall (packageOption (oauth "T1") storeNone
                    (fun _ : unit => storeNone)) options) as Hall
    by (repeat constructor).
  split; [exact Hall|].
  destruct (insecure_opt_in nat nat (oauth "T1") storeNone unit
              (fun _ => storeNone) options) as (_ & H & _).
  exact (H Hall).
Defined.


(** ** The further properties on concrete clients *)

Lemma error_leaves_options_witness :
  let s' := stateOf (credentialCallback 0%nat "y.io" stateC) in
  credentialCallback 0%nat "y.io" stateC =
    Ret (auth.EmptyCredential, Some "disk read failed"%string) s' /\
  opt s' = opt stateC /\
  (last (since stateC s') =
     Some (EvLogin 0%nat "y.io" (Some (Some "disk read failed"%string))) \/
   exists credFunc c,
     last (since stateC s') =
       Some (EvCall credFunc 0%nat "y.io"
               (Some (c, Some "disk read failed"%string)))).
Proof.
  intros s'.
  assert (credentialCallback 0%nat "y.io" stateC =
            Ret (auth.EmptyCredential, Some "disk read failed"%string) s')
    as Ho by (vm_compute; reflexivity).
  split; [exact Ho|].
  destruct (error_leaves_options nat nat stateC 0%nat "y.io"
              auth.EmptyCredential "disk read failed" s' Ho) as (H1 & _ & H3).
  split; [exact H1|exact H3].
Defined.

Lemma panic_propagation_witness :
  let o := credentialCallback 0%nat host stateNil in
  CredentialsFuncsCache_ (opt stateNil) = None /\
  o = Panic (stateOf o) /\
  opt (stateOf o) = opt stateNil /\
  (last (since stateNil (stateOf o)) = Some (EvLogin 0%nat host None) \/
   exists credFunc,
     last (since stateNil (stateOf o)) =
       Some (EvCall credFunc 0%nat host None) \/
     CredentialsFuncsCache_ (opt stateNil) = None /\
     exists cred,
       cred <> auth.EmptyCredential /\
       last (since stateNil (stateOf o)) =
         Some (EvCall credFunc 0%nat host (Some (cred, None)))).
Proof.
  intros o. split; [reflexivity|].
  destruct (panic_propagation nat nat stateNil 0%nat host) as [Hiff H].
  assert (o = Panic (stateOf o)) as Ho.
  { apply Hiff. right. right. split; [reflexivity|].
    exists (token "T1"). split; [discriminate|reflexivity]. }
  split; [exact Ho|]. exact (H Ho).
Defined.

Lemma calls_only_configured_witness :
  let reqs := [(0%nat, host); (1%nat, host)] in
  (forall reg p,
     CredentialsFuncsCache (opt stateA) !! reg = Some p ->
     p ∈ CredentialsFuncs (opt stateA)) /\
  forall credFunc,
    credFunc ∈ calledFuncs (since stateA (resolveAll reqs stateA)) ->
    credFunc ∈ CredentialsFuncs (opt stateA).
Proof.
  intros reqs.
  assert (forall reg p,
            CredentialsFuncsCache (opt stateA) !! reg = Some p ->
            p ∈ CredentialsFuncs (opt stateA)) as Hcache.
  { intros reg p Hp. cbn in Hp. rewrite lookup_empty in Hp. discriminate. }
  split; [exact Hcache|].
  apply (calls_only_configured nat nat stateA reqs Hcache).
Defined.

Lemma first_credential_wins_witness :
  let o := credentialCallback 0%nat host stateThree in
  CredentialsFuncs (opt stateThree) =
    [storeNone] ++ oauth "T1" :: [oauth "T2"] /\
  noCredentialRun [storeNone] 0%nat host w0 (lookedUp w0) /\
  o = Ret (token "T1", None) (stateOf o) /\
  CredentialsFuncsCache (opt (stateOf o)) =
    <[host := oauth "T1"]> (CredentialsFuncsCache (opt stateThree)) /\
  calledFuncs (since stateThree (stateOf o)) = [storeNone] ++ [oauth "T1"] /\
  world (stateOf o) = lookedUp (lookedUp w0).
Proof.
  intros o.
  assert (noCredentialRun [storeNone] 0%nat host w0 (lookedUp w0)) as Hrun
    by (exists (lookedUp w0); split; reflexivity).
  split; [reflexivity|]. split; [exact Hrun|].
  apply (first_credential_wins nat nat stateThree 0%nat host
           [storeNone] (oauth "T1") [oauth "T2"] (token "T1")
           w0 (lookedUp w0) (lookedUp (lookedUp w0))).
  - reflexivity.
  - discriminate.
  - reflexivity.
  - reflexivity.
  - exact Hrun.
  - reflexivity.
  - discriminate.
Defined.

Lemma cached_static_credential_witness :
  let s := resolveAll [(0%nat, host)] stateB in
  let o := credentialCallback 1%nat host s in
  CredentialsFuncsCache (opt s) !! host =
    Some (staticCredential (Some 1%nat)) /\
  heap (world s) !! 1%nat = Some (basic "u" "p") /\
  o = Ret (basic "u" "p", None) (stateOf o) /\
  since s (stateOf o) =
    [EvCall (staticCredential (Some 1%nat)) 1%nat host
       (Some (basic "u" "p", None))] /\
  opt (stateOf o) = opt s /\
  world (stateOf o) = world s.
Proof.
  intros s o.
  assert (CredentialsFuncsCache (opt s) !! host =
            Some (staticCredential (Some 1%nat))) as Hc
    by (vm_compute; reflexivity).
  assert (heap (world s) !! 1%nat = Some (basic "u" "p")) as Hl
    by (vm_compute; reflexivity).
  split; [exact Hc|]. split; [exact Hl|].
  apply (cached_static_credential nat nat s 1%nat host 1%nat
           (basic "u" "p") Hc Hl).
Defined.

Lemma option_order_is_function_order_witness :
  let os1 : list (Options nat nat -> Options nat nat) :=
    [WithInsecure; WithStore (fun _ : unit => storeNone) tt] in
  let os2 : list (Options nat nat -> Options nat nat) :=
    [WithCredentials (Some 1%nat); WithGcpCredentials (oauth "T2")] in
  Forall (packageOption (oauth "T1") (oauth "T2") (fun _ : unit => storeNone))
    os2 /\
  CredentialsFuncs (NewClient_opt (os1 ++ os2)) =
    CredentialsFuncs (NewClient_opt os1)
      ++ CredentialsFuncs (NewClient_opt os2).
Proof.
  intros os1 os2.
  assert (Forall (packageOption (oauth "T1") (oauth "T2")
                    (fun _ : unit => storeNone)) os2) as Hall
    by (repeat constructor).
  split; [exact Hall|].
  destruct (option_order_is_function_order nat nat (oauth "T1") (oauth "T2")
              unit (fun _ => storeNone) os1 os2 Hall) as [H _].
  exact H.
Defined.

Lemma last_setting_wins_witness :
  let os1 : list (Options nat nat -> Options nat nat) :=
    [WithAutoLogin (Some (loginFails "login failed"))] in
  let os2 : list (Options nat nat -> Options nat nat) :=
    [WithInsecure; WithCredentials (Some 1%nat)] in
  Forall (packageOption (oauth "T1") (oauth "T2") (fun _ : unit => storeNone))
    os2 /\
  AutoLoginHandler_
    (NewClient_opt (os1 ++ WithAutoLogin (Some loginSucceeds) :: os2)) =
    Some loginSucceeds /\
  AutoLoginHandler_ (NewClient_opt os2) = None.
Proof.
  intros os1 os2.
  assert (Forall (packageOption (oauth "T1") (oauth "T2")
                    (fun _ : unit => storeNone)) os2) as Hall
    by (repeat constructor).
  split; [exact Hall|].
  destruct (last_setting_wins nat nat (oauth "T1") (oauth "T2")
              unit (fun _ => storeNone) os1 os2 (Some loginSucceeds) None Hall)
    as [H _].
  apply H. intros h' Hin.
  apply elem_of_cons in Hin as [Heq|Hin].
  - apply (f_equal (fun o => Insecure (o (NewClient_opt [])))) in Heq.
    discriminate Heq.
  - apply list_elem_of_singleton in Hin.
    apply (f_equal (fun o => CredentialsFuncs (o (NewClient_opt [])))) in Hin.
    discriminate Hin.
Defined.
